(** * pwho: PROXY protocol v1 probing over a buffered socket

    A shallow embedding of [pwho/__init__.py] and [pwho/exc.py]:
    the [io.BytesIO] accumulator, the [SocketBuffer] adapter, [read_line],
    [parse_line] and [StreamRequestMixin.proxy_protocol], with the
    properties of the specification stated and proved over them.

    Byte strings are lists of characters, Python integers are [Z] where
    they can be negative and [nat] where they are lengths or indices. *)

From Stdlib Require Import DecimalString.
From Stdlib Require Import Ascii String ZArith Lia Bool Arith List.
Import ListNotations.

(** ** Byte strings *)

Definition bytes := list ascii.

(** [b "..."] is the byte string literal [b'...']. *)
Definition b (s : string) : bytes := list_ascii_of_string s.

Definition CR : ascii := ascii_of_nat 13.
Definition LF : ascii := ascii_of_nat 10.
Definition DQUOTE : ascii := ascii_of_nat 34.
Definition SP : ascii := ascii_of_nat 32.

(** [CRLF = b'\r\n'] *)
Definition CRLF : bytes := [CR; LF].

(** [data.startswith(prefix)] *)
Fixpoint startswith (prefix data : bytes) : bool :=
  match prefix, data with
  | [], _ => true
  | _ :: _, [] => false
  | p :: ps, d :: ds => Ascii.eqb p d && startswith ps ds
  end.

(** [data.endswith(suffix)] *)
Definition endswith (suffix data : bytes) : bool :=
  (length suffix <=? length data)
  && startswith suffix (skipn (length data - length suffix) data).

(** [data.find(sub)]: the lowest index at which [sub] occurs, [None] for
    Python's [-1]. *)
Fixpoint find (sub data : bytes) : option nat :=
  match data with
  | [] => if startswith sub [] then Some 0 else None
  | _ :: rest =>
      if startswith sub data then Some 0 else option_map S (find sub rest)
  end.

(** [data.split(sep)] for a one-byte separator: every occurrence splits,
    so the result has one more field than there are separators. *)
Fixpoint split (sep : ascii) (data : bytes) : list bytes :=
  match data with
  | [] => [[]]
  | c :: rest =>
      if Ascii.eqb c sep then [] :: split sep rest
      else match split sep rest with
           | [] => [[c]]
           | w :: ws => (c :: w) :: ws
           end
  end.

(** ** [io.BytesIO]

    The in-memory stream: its content and its stream position.  Only the
    methods the program calls are modelled. *)

Module BytesIO.

Record t := mk { content : bytes; pos : nat }.

(** [io.BytesIO()] *)
Definition empty : t := mk [] 0.

Definition getvalue (s : t) : bytes := content s.

Definition tell (s : t) : nat := pos s.

(** [seek(offset)] from the start of the stream. *)
Definition seek (offset : nat) (s : t) : t := mk (content s) offset.

(** [write(data)]: overwrite from the position on, extending the content
    as needed (zero filled when the position lies beyond the end), and
    move the position past what was written. *)
Definition write (data : bytes) (s : t) : t :=
  mk (firstn (pos s) (content s)
        ++ repeat zero (pos s - length (content s))
        ++ data
        ++ skipn (pos s + length data) (content s))
     (pos s + length data).

(** [truncate()]: cut the content at the position; the position stays. *)
Definition truncate (s : t) : t := mk (firstn (pos s) (content s)) (pos s).

(** The position sits at the end of the content. *)
Definition at_end (s : t) : Prop := pos s = length (content s).

End BytesIO.

(** ** The underlying socket

    The transport is a collaborator of the program.  It is modelled by the
    data it still has to deliver, in the segments in which it arrives:
    [recv n] hands out at most [n] bytes of the first segment, and the empty
    byte string once the peer has closed and everything was delivered. *)

Module Socket.

Definition t := list bytes.

Fixpoint recv (bufsize : nat) (s : t) : bytes * t :=
  match s with
  | [] => ([], [])
  | [] :: rest => recv bufsize rest
  | chunk :: rest =>
      if length chunk <=? bufsize then (chunk, rest)
      else (firstn bufsize chunk, skipn bufsize chunk :: rest)
  end.

(** Everything the socket will still deliver. *)
Definition stream (s : t) : bytes := concat s.

End Socket.

(** ** [pwho.exc] *)

Module exc.

(** [ReadError] and its two subclasses. *)
Inductive ReadError :=
| LineTooLong (length : nat) (limit : Z)
| NoLine (size : nat).

(** [InvalidLine], the only [ParseError]: the message handed to
    [Exception.__init__] and the [line] attribute. *)
Record ParseError := mkInvalidLine { message : bytes; line : bytes }.

(** [InvalidLine.__init__(self, reason, line)] *)
Definition InvalidLine (reason line : bytes) : ParseError :=
  mkInvalidLine (reason ++ b " - " ++ line) line.

End exc.

(** What the program raises or lets through: its own two families, the
    [ValueError] of [proxy_protocol], and from [socket.inet_pton] the
    [socket.error] that [parse_line] catches and the [TypeError] that
    nothing catches. *)
Inductive exception :=
| ValueError
| TypeError
| socket_error
| ReadError (e : exc.ReadError)
| ParseError (e : exc.ParseError).

(** The outcome of a call that may raise. *)
Inductive outcome (E A : Type) :=
| Return (a : A)
| Raise (e : E).
Arguments Return {E A} a.
Arguments Raise {E A} e.

(** ** [SocketBuffer] *)

Record SocketBuffer := mkSocketBuffer { sock : Socket.t; buf : BytesIO.t }.

(** [SocketBuffer.__init__] *)
Definition SocketBuffer_init (sk : Socket.t) : SocketBuffer :=
  mkSocketBuffer sk BytesIO.empty.

Definition unread (self : SocketBuffer) (bs : bytes) : SocketBuffer :=
  let data := bs ++ BytesIO.getvalue (buf self) in
  let buf1 := BytesIO.seek 0 (buf self) in
  let buf2 := BytesIO.write data buf1 in
  mkSocketBuffer (sock self) buf2.

Definition recv (self : SocketBuffer) (bufsize : nat) : bytes * SocketBuffer :=
  if BytesIO.tell (buf self) =? 0 then
    let (data, sk) := Socket.recv bufsize (sock self) in
    (data, mkSocketBuffer sk (buf self))
  else
    let data := BytesIO.getvalue (buf self) in
    let buf1 := BytesIO.seek 0 (buf self) in
    if bufsize <? length data then
      let head := firstn bufsize data in
      let buf2 := BytesIO.write (skipn bufsize data) buf1 in
      (head, mkSocketBuffer (sock self) (BytesIO.truncate buf2))
    else
      (data, mkSocketBuffer (sock self) (BytesIO.truncate buf1)).

(** [recvfrom]: the same buffering rule, paired with the peer's address
    ([getpeername] of the socket, a property of the connection). *)
Definition recvfrom (peer : bytes * Z) (self : SocketBuffer) (bufsize : nat)
  : (bytes * (bytes * Z)) * SocketBuffer :=
  if BytesIO.tell (buf self) =? 0 then
    let (data, sk) := Socket.recv bufsize (sock self) in
    ((data, peer), mkSocketBuffer sk (buf self))
  else
    let address := peer in
    let (data, self') := recv self bufsize in
    ((data, address), self').

(** [close]: empty the buffer, then close the socket, which delivers
    nothing afterwards. *)
Definition close (self : SocketBuffer) : SocketBuffer :=
  let buf1 := BytesIO.seek 0 (buf self) in
  let buf2 := BytesIO.truncate buf1 in
  mkSocketBuffer [] buf2.

(** ** [read_line] *)

(** [limit and n > limit]: [None] and [0] are falsy, so they impose no
    bound. *)
Definition exceeds (limit : option Z) (n : nat) : bool :=
  match limit with
  | None => false
  | Some l => negb (l =? 0)%Z && (Z.of_nat n >? l)%Z
  end.

(** The integer carried by [LineTooLong]; only read when [limit] is
    truthy. *)
Definition limit_value (limit : option Z) : Z :=
  match limit with None => 0%Z | Some l => l end.

(** The [while True] loop, one iteration per unit of fuel; [None] when the
    fuel runs out before the loop has returned or raised. *)
Fixpoint read_line_loop (fuel : nat) (sk : Socket.t) (buffer : BytesIO.t)
    (read_size : nat) (limit : option Z)
  : option (outcome exc.ReadError bytes * Socket.t * BytesIO.t) :=
  match fuel with
  | 0 => None
  | S fuel' =>
      let data := BytesIO.getvalue buffer in
      match find CRLF data with
      | Some idx =>
          if exceeds limit (idx + 2) then
            Some (Raise (exc.LineTooLong idx (limit_value limit)), sk, buffer)
          else
            let line := firstn (idx + 2) data in
            let buffer1 := BytesIO.seek 0 buffer in
            let buffer2 := BytesIO.write (skipn (idx + 2) data) buffer1 in
            let buffer3 := BytesIO.truncate buffer2 in
            Some (Return line, sk, buffer3)
      | None =>
          if exceeds limit (length data + 2) then
            Some (Raise (exc.LineTooLong (length data) (limit_value limit)),
                  sk, buffer)
          else
            let (data', sk') := Socket.recv read_size sk in
            match data' with
            | [] =>
                Some (Raise (exc.NoLine (length (BytesIO.getvalue buffer))),
                      sk', buffer)
            | _ :: _ =>
                read_line_loop fuel' sk' (BytesIO.write data' buffer)
                               read_size limit
            end
      end
  end.

(** Every iteration that goes round again has taken at least one byte off
    the socket, so one more iteration than the socket has bytes is enough
    (see [read_line_total]). *)
Definition read_line (sk : Socket.t) (buffer : BytesIO.t)
    (read_size : nat) (limit : option Z) :=
  read_line_loop (S (length (Socket.stream sk))) sk buffer read_size limit.

(** The default of the [read_size] parameter. *)
Definition default_read_size : nat := 256.

(** ** [parse_line] *)

Record ProxyInfo := mkProxyInfo {
  source_address : bytes;
  source_port : Z;
  destination_address : bytes;
  destination_port : Z
}.

Inductive address_family := AF_INET | AF_INET6.

Definition is_digit (c : ascii) : bool :=
  (48 <=? nat_of_ascii c) && (nat_of_ascii c <=? 57).

Definition digit_value (c : ascii) : nat := nat_of_ascii c - 48.

Definition is_xdigit (c : ascii) : bool :=
  let n := nat_of_ascii c in
  is_digit c || ((65 <=? n) && (n <=? 70)) || ((97 <=? n) && (n <=? 102)).

(** [socket.inet_pton(AF_INET, s)] succeeds: the C library's strict
    dotted quad, four decimal fields of at most 255 without a leading
    zero.  [val] is the field being read, [saw_digit] whether it has a
    digit yet, [octets] the fields begun. *)
Fixpoint inet_pton4_loop (s : bytes) (val : nat) (saw_digit : bool)
    (octets : nat) : bool :=
  match s with
  | [] => 4 <=? octets
  | ch :: rest =>
      if is_digit ch then
        let new := val * 10 + digit_value ch in
        if saw_digit && (val =? 0) then false
        else if 255 <? new then false
        else if saw_digit then inet_pton4_loop rest new true octets
        else if 4 <? S octets then false
        else inet_pton4_loop rest new true (S octets)
      else if Ascii.eqb ch "." && saw_digit then
        if octets =? 4 then false
        else inet_pton4_loop rest 0 false octets
      else false
  end.

Definition inet_pton4 (s : bytes) : bool := inet_pton4_loop s 0 false 0.

(** [socket.inet_pton(AF_INET6, s)] succeeds: groups of at most four
    hexadecimal digits separated by colons, at most one [::], optionally a
    dotted quad in the last four bytes.  [tp] counts the bytes produced,
    [colonp] whether [::] was seen, [seen] the digits of the current group,
    [curtok] the input from the start of the current group. *)
Fixpoint inet_pton6_loop (s curtok : bytes) (tp : nat) (colonp : bool)
    (seen : nat) : bool :=
  match s with
  | [] =>
      let tp1 := if 0 <? seen then tp + 2 else tp in
      if (0 <? seen) && (16 <? tp + 2) then false
      else if colonp then negb (tp1 =? 16)
      else tp1 =? 16
  | ch :: rest =>
      if is_xdigit ch then
        if 4 <? S seen then false
        else inet_pton6_loop rest curtok tp colonp (S seen)
      else if Ascii.eqb ch ":" then
        if seen =? 0 then
          if colonp then false else inet_pton6_loop rest rest tp true 0
        else
          match rest with
          | [] => false
          | _ :: _ =>
              if 16 <? tp + 2 then false
              else inet_pton6_loop rest rest (tp + 2) colonp 0
          end
      else if Ascii.eqb ch "." && (tp + 4 <=? 16) && inet_pton4 curtok then
        if colonp then negb (tp + 4 =? 16) else tp + 4 =? 16
      else false
  end.

Definition inet_pton6 (s : bytes) : bool :=
  match s with
  | ":"%char :: rest =>
      match rest with
      | ":"%char :: _ => inet_pton6_loop rest rest 0 false 0
      | _ => false
      end
  | _ => inet_pton6_loop s s 0 false 0
  end.

(** The byte string holds a NUL byte. *)
Definition has_null (s : bytes) : bool := existsb (Ascii.eqb zero) s.

(** [socket.inet_pton(family, s)], whose packed result the program does
    not use.  A byte string with a NUL byte is refused with [TypeError]
    before the C library sees it; what the C library refuses raises
    [socket.error]. *)
Definition inet_pton (family : address_family) (s : bytes)
  : outcome exception unit :=
  if has_null s then Raise TypeError
  else if match family with
          | AF_INET => inet_pton4 s
          | AF_INET6 => inet_pton6 s
          end
       then Return tt
       else Raise socket_error.

(** The bytes [int] skips at both ends of its argument. *)
Definition is_space (c : ascii) : bool :=
  let n := nat_of_ascii c in
  (n =? 32) || ((9 <=? n) && (n <=? 13)).

Fixpoint lstrip (s : bytes) : bytes :=
  match s with
  | c :: rest => if is_space c then lstrip rest else s
  | [] => []
  end.

Definition strip (s : bytes) : bytes := rev (lstrip (rev (lstrip s))).

Fixpoint decimal (s : bytes) (acc : Z) : option Z :=
  match s with
  | [] => Some acc
  | c :: rest =>
      if is_digit c then decimal rest (acc * 10 + Z.of_nat (digit_value c))%Z
      else None
  end.

(** [int(s)] on a byte string: surrounding white space, an optional sign
    and at least one decimal digit; [None] for [ValueError]. *)
Definition py_int (s : bytes) : option Z :=
  match strip s with
  | [] => None
  | "+"%char :: ((_ :: _) as ds) => decimal ds 0
  | "-"%char :: ((_ :: _) as ds) => option_map Z.opp (decimal ds 0)
  | ds => decimal ds 0
  end.

Definition PROXY : bytes := b "PROXY".
Definition TCP4 : bytes := b "TCP4".
Definition TCP6 : bytes := b "TCP6".

Definition bytes_eqb (x y : bytes) : bool :=
  if list_eq_dec ascii_dec x y then true else false.

(** The reasons [parse_line] hands to [InvalidLine]. *)
Definition missing_prefix : bytes :=
  b "Missing " ++ DQUOTE :: b "PROXY" ++ DQUOTE :: b " prefix".
Definition missing_terminal : bytes :=
  b "Missing " ++ DQUOTE :: b "\r\n" ++ DQUOTE :: b " terminal".
Definition expected_6_parts : bytes :=
  b "Expected 6 " ++ DQUOTE :: b " " ++ DQUOTE :: b " delimited parts".
Definition invalid_addresses (inet : bytes) : bytes :=
  b "Invalid INET " ++ inet ++ b " address(es)".
Definition unsupported_inet (inet : bytes) : bytes :=
  b "Unsupported INET " ++ DQUOTE :: inet ++ [DQUOTE].
Definition invalid_port : bytes := b "Invalid port".

(** The fields of a line: [line[:-len(CRLF)].split(b' ')]. *)
Definition fields (line : bytes) : list bytes :=
  split SP (firstn (length line - length CRLF) line).

(** The two [int] conversions of the last [try] block.  On failure the
    source calls [exc.InvalidLine(line, 'Invalid port')], the line in the
    place of the reason and the reason in the place of the line. *)
Definition parse_ports (line src_addr dst_addr p4 p5 : bytes)
  : outcome exception ProxyInfo :=
  match py_int p4 with
  | None => Raise (ParseError (exc.InvalidLine line invalid_port))
  | Some src_port =>
      match py_int p5 with
      | None => Raise (ParseError (exc.InvalidLine line invalid_port))
      | Some dst_port =>
          Return (mkProxyInfo src_addr src_port dst_addr dst_port)
      end
  end.

(** One of the two [try] blocks around [socket.inet_pton]: the source
    address, then the destination address; [socket.error] becomes an
    [InvalidLine], anything else [inet_pton] raises goes through. *)
Definition check_addresses (family : address_family)
    (inet line src_addr dst_addr : bytes) : outcome exception unit :=
  match inet_pton family src_addr with
  | Raise socket_error =>
      Raise (ParseError (exc.InvalidLine (invalid_addresses inet) line))
  | Raise e => Raise e
  | Return _ =>
      match inet_pton family dst_addr with
      | Raise socket_error =>
          Raise (ParseError (exc.InvalidLine (invalid_addresses inet) line))
      | Raise e => Raise e
      | Return _ => Return tt
      end
  end.

Definition parse_line (line : bytes) : outcome exception ProxyInfo :=
  if negb (startswith PROXY line) then
    Raise (ParseError (exc.InvalidLine missing_prefix line))
  else if negb (endswith CRLF line) then
    Raise (ParseError (exc.InvalidLine missing_terminal line))
  else
    let parts := fields line in
    if negb (length parts =? 6) then
      Raise (ParseError (exc.InvalidLine expected_6_parts line))
    else
      let inet := nth 1 parts [] in
      let src_addr := nth 2 parts [] in
      let dst_addr := nth 3 parts [] in
      if bytes_eqb inet TCP4 then
        match check_addresses AF_INET inet line src_addr dst_addr with
        | Raise e => Raise e
        | Return _ =>
            parse_ports line src_addr dst_addr (nth 4 parts [])
                        (nth 5 parts [])
        end
      else if bytes_eqb inet TCP6 then
        match check_addresses AF_INET6 inet line src_addr dst_addr with
        | Raise e => Raise e
        | Return _ =>
            parse_ports line src_addr dst_addr (nth 4 parts [])
                        (nth 5 parts [])
        end
      else Raise (ParseError (exc.InvalidLine (unsupported_inet inet) line)).

(** ** [StreamRequestMixin] *)

(** What [proxy_protocol] takes as [default] and returns: [None], a string
    such as ['peer'], or a [ProxyInfo]. *)
Inductive value :=
| PyNone
| PyStr (s : bytes)
| PyInfo (info : ProxyInfo).

(** [self.request]: the accepted socket, wrapped in a [SocketBuffer] by
    the first call of [proxy_protocol]. *)
Inductive request_t :=
| Plain (sk : Socket.t)
| Buffered (sb : SocketBuffer).

Record handler := mkHandler {
  request : request_t;
  client_address : bytes * Z
}.

(** The default [proxy_authenticate]: the destination is the peer. *)
Definition proxy_authenticate (self : handler) (info : ProxyInfo) : bool :=
  let (host, port) := client_address self in
  bytes_eqb (destination_address info) host
  && (destination_port info =? port)%Z.

Definition is_peer (default : value) : bool :=
  match default with
  | PyStr s => bytes_eqb s (b "peer")
  | _ => false
  end.

(** [self.request] once [proxy_protocol] has made sure it is a
    [SocketBuffer]. *)
Definition wrap_request (self : handler) : SocketBuffer :=
  match request self with
  | Buffered sb => sb
  | Plain sk => SocketBuffer_init sk
  end.

(** [default] once ['peer'] has been replaced by the peer's address as
    both source and destination. *)
Definition resolve_default (self : handler) (default : value) : value :=
  if is_peer default then
    PyInfo (mkProxyInfo (fst (client_address self))
                        (snd (client_address self))
                        (fst (client_address self))
                        (snd (client_address self)))
  else default.

(** The handler with [self.request] set to [sb]. *)
Definition with_request (self : handler) (sb : SocketBuffer) : handler :=
  mkHandler (Buffered sb) (client_address self).

(** [proxy_protocol], with the method [self.proxy_authenticate] resolves to
    as [hook] (a subclass may override the default).  The result is [None]
    only if [read_line] runs out of fuel, which it never does. *)
Definition proxy_protocol (hook : handler -> ProxyInfo -> bool)
    (self : handler) (error : bytes) (default : value) (limit : option Z)
    (authenticate : bool) : option (outcome exception value * handler) :=
  if negb (bytes_eqb error (b "raise") || bytes_eqb error (b "unread")) then
    Some (Raise ValueError, self)
  else
    let sb := wrap_request self in
    let default := resolve_default self default in
    match read_line (sock sb) (buf sb) default_read_size limit with
    | None => None
    | Some (Raise e, sk, buffer) =>
        let self := with_request self (mkSocketBuffer sk buffer) in
        if bytes_eqb error (b "raise") then Some (Raise (ReadError e), self)
        else Some (Return default, self)
    | Some (Return line, sk, buffer) =>
        let sb := mkSocketBuffer sk buffer in
        let self := with_request self sb in
        match parse_line line with
        | Raise (ParseError e) =>
            if bytes_eqb error (b "raise") then
              Some (Raise (ParseError e), self)
            else
              Some (Return default, with_request self (unread sb line))
        | Raise e => Some (Raise e, self)
        | Return info =>
            if authenticate && negb (hook self info) then
              Some (Return default, self)
            else Some (Return (PyInfo info), self)
        end
    end.

(** ** Vocabulary of the properties *)

(** The logical stream of an adapter: what is pending in its buffer, then
    what the underlying socket still has to deliver. *)
Definition pending (self : SocketBuffer) : bytes :=
  BytesIO.getvalue (buf self) ++ Socket.stream (sock self).

(** The calls a user of the adapter interleaves. *)
Inductive op :=
| Unread (bs : bytes)
| Recv (bufsize : nat).

(** Run the calls in order; the result lists what each [recv] delivered. *)
Fixpoint run (ops : list op) (self : SocketBuffer)
  : list bytes * SocketBuffer :=
  match ops with
  | [] => ([], self)
  | Unread bs :: ops' => run ops' (unread self bs)
  | Recv n :: ops' =>
      let (d, self1) := recv self n in
      let (ds, self2) := run ops' self1 in
      (d :: ds, self2)
  end.

(** The same calls against a plain byte stream: [Unread bs] puts [bs] in
    front of it, and a [Recv n] that delivered [d] must have delivered at
    most [n] bytes from its front.  The result is what is left of the
    stream, [None] if a delivery does not fit. *)
Fixpoint replay (ops : list op) (outs : list bytes) (stream : bytes)
  : option bytes :=
  match ops, outs with
  | [], [] => Some stream
  | Unread bs :: ops', _ => replay ops' outs (bs ++ stream)
  | Recv n :: ops', d :: outs' =>
      if (length d <=? n) && startswith d stream
      then replay ops' outs' (skipn (length d) stream)
      else None
  | _, _ => None
  end.

(** The adapters a program can hold: a fresh one, and whatever the
    operations that touch the pending buffer make of it.  [recv_into] and
    [recvfrom_into] reach the buffer through [recv] only. *)
Inductive reachable : SocketBuffer -> Prop :=
| reach_init sk : reachable (SocketBuffer_init sk)
| reach_unread self bs : reachable self -> reachable (unread self bs)
| reach_recv self n : reachable self -> reachable (snd (recv self n))
| reach_recvfrom peer self n :
    reachable self -> reachable (snd (recvfrom peer self n))
| reach_close self : reachable self -> reachable (close self)
| reach_read_line self read_size limit r sk buffer :
    reachable self ->
    read_line (sock self) (buf self) read_size limit = Some (r, sk, buffer) ->
    reachable (mkSocketBuffer sk buffer).

(** What [read_line] leaves behind, by the way it ended.  [view] is the
    logical stream it started from, [data] the content of the buffer and
    [rest] the stream of the socket when it ended. *)
Definition read_line_post (read_size : nat) (limit : option Z)
    (view : bytes) (r : outcome exc.ReadError bytes) (data rest : bytes)
  : Prop :=
  match r with
  | Return line =>
      exists idx, find CRLF view = Some idx
        /\ exceeds limit (idx + 2) = false
        /\ line = firstn (idx + 2) view
        /\ data ++ rest = skipn (idx + 2) view
  | Raise (exc.LineTooLong n l) =>
      l = limit_value limit
      /\ exceeds limit (n + 2) = true
      /\ data ++ rest = view
      /\ (find CRLF data = Some n
          \/ (find CRLF data = None /\ n = length data))
  | Raise (exc.NoLine n) =>
      n = length data
      /\ find CRLF data = None
      /\ data ++ rest = view
      /\ (0 < read_size -> rest = [])
  end.

(** The address check of [parse_line]: the family token is [TCP4] or
    [TCP6] and both addresses are literals of that family. *)
Definition addresses_ok (inet src dst : bytes) : Prop :=
  (inet = TCP4 /\ inet_pton AF_INET src = Return tt
   /\ inet_pton AF_INET dst = Return tt)
  \/ (inet = TCP6 /\ inet_pton AF_INET6 src = Return tt
      /\ inet_pton AF_INET6 dst = Return tt).

(** ** Inputs of the test suite and of the examples *)

(** The line of the docstring of [parse_line]. *)
Definition tcp4_line : bytes :=
  b "PROXY TCP4 192.168.0.1 192.168.0.11 56324 443" ++ CRLF.

Definition tcp4_info : ProxyInfo :=
  mkProxyInfo (b "192.168.0.1") 56324 (b "192.168.0.11") 443.

(** The TCP6 line of [test_parse]. *)
Definition tcp6_line : bytes :=
  b "PROXY TCP6 FE80:0000:0000:0000:0202:B3FF:FE1E:8329 2607:f0d0:1002:0051:0000:0000:0000:0004 56324 443"
    ++ CRLF.

Definition tcp6_info : ProxyInfo :=
  mkProxyInfo (b "FE80:0000:0000:0000:0202:B3FF:FE1E:8329") 56324
              (b "2607:f0d0:1002:0051:0000:0000:0000:0004") 443.

(** The line of [test_parse] whose source port is [abc]. *)
Definition bad_port_line : bytes :=
  b "PROXY TCP4 192.168.0.1 192.168.0.11 abc 443" ++ CRLF.

(** A line whose first field is longer than the token. *)
Definition proxyz_line : bytes :=
  b "PROXYZ TCP4 192.168.0.1 192.168.0.11 56324 443" ++ CRLF.

(** A line with a source port above 65535. *)
Definition big_port_line : bytes :=
  b "PROXY TCP4 192.168.0.1 192.168.0.11 70000 443" ++ CRLF.

(** The message [stream_ping] sends after the proxy line. *)
Definition hiya : bytes := b "hiya" ++ CRLF.

(** A socket delivering a line of 10 bytes with the CR and the LF of its
    terminator in separate segments. *)
Definition split_terminator : Socket.t := [b "12345678" ++ [CR]; [LF]].

(** A socket delivering 9 bytes without a terminator, then the end of a
    line of 12 bytes. *)
Definition nine_unterminated : Socket.t := [b "123456789"; b "0" ++ CRLF].

(** A handler for a connection from [peer] that sends [segments]. *)
Definition connection (segments : Socket.t) (peer : bytes * Z) : handler :=
  mkHandler (Plain segments) peer.

Definition a_peer : bytes * Z := (b "127.0.0.1", 50000%Z).

(** The position test of [recv], [recvfrom] and [recv_into]:
    [not self.buf.tell()]. *)
Definition buffer_looks_empty (self : SocketBuffer) : bool :=
  BytesIO.tell (buf self) =? 0.

(** ** The request handler of the test suite ([test.py]) *)

(** [sep.join(parts)] for a one-byte separator. *)
Fixpoint join (sep : ascii) (parts : list bytes) : bytes :=
  match parts with
  | [] => []
  | [w] => w
  | w :: ws => w ++ sep :: join sep ws
  end.

(** [str(n)] for an integer. *)
Definition str (n : Z) : bytes := b (NilZero.string_of_int (Z.to_int n)).

Module test.

(** [read_line(sock, buf)] of [test.py]: the loop of [pwho.read_line]
    without a limit, reading 4096 bytes at a time from whatever has a
    [recv]: a socket in [stream_ping], the [SocketBuffer] in the handler.
    [None] when the fuel runs out. *)
Fixpoint read_line_loop {S : Type} (recv : S -> nat -> bytes * S)
    (fuel : nat) (sock : S) (buf : BytesIO.t)
  : option (outcome exc.ReadError bytes * S * BytesIO.t) :=
  match fuel with
  | 0 => None
  | Datatypes.S fuel' =>
      let data := BytesIO.getvalue buf in
      match find CRLF data with
      | Some idx =>
          let line := firstn (idx + 2) data in
          let buf1 := BytesIO.seek 0 buf in
          let buf2 := BytesIO.write (skipn (idx + 2) data) buf1 in
          let buf3 := BytesIO.truncate buf2 in
          Some (Return line, sock, buf3)
      | None =>
          let (data', sock') := recv sock 4096 in
          match data' with
          | [] =>
              Some (Raise (exc.NoLine (length (BytesIO.getvalue buf))),
                    sock', buf)
          | _ :: _ =>
              read_line_loop recv fuel' sock' (BytesIO.write data' buf)
          end
      end
  end.

(** [read_line(self.request, buf)]: through the adapter, which has no
    more to deliver than its logical stream. *)
Definition read_line (sock : SocketBuffer) (buf : BytesIO.t) :=
  read_line_loop recv (S (length (pending sock))) sock buf.

(** [','.join(map(str, proxy_info))]: the four fields of a record, the
    bytes of a string. *)
Definition render (proxy_info : value) : bytes :=
  match proxy_info with
  | PyInfo info =>
      join ","%char [source_address info; str (source_port info);
                     destination_address info; str (destination_port info)]
  | PyStr s => join ","%char (map (fun c => [c]) s)
  | PyNone => []
  end.

(** [RequestHandler.handle] of [hander(error)]: probe with a limit of
    1024, read one line more when there was no proxy line, read the
    message line, then send the fragments.  The result is the list of
    fragments sent, or what was raised before anything was sent.  After
    [proxy_protocol] has returned, [self.request] is the [SocketBuffer]
    it made of the request. *)
Definition handle (error : bytes) (self : handler)
  : option (outcome exception (list bytes) * handler) :=
  match proxy_protocol proxy_authenticate self error PyNone
                       (Some 1024%Z) false with
  | None => None
  | Some (Raise e, self) => Some (Raise e, self)
  | Some (Return proxy_info, self) =>
      let buf := BytesIO.empty in
      let first :=
        match proxy_info with
        | PyNone =>
            match read_line (wrap_request self) buf with
            | None => None
            | Some (Raise e, sb, buf) =>
                Some (Raise (ReadError e), sb, buf)
            | Some (Return line, sb, buf) => Some (Return [line], sb, buf)
            end
        | _ => Some (Return [render proxy_info; CRLF], wrap_request self, buf)
        end in
      match first with
      | None => None
      | Some (Raise e, sb, _) => Some (Raise e, with_request self sb)
      | Some (Return msg, sb, buf) =>
          match read_line sb buf with
          | None => None
          | Some (Raise e, sb, _) =>
              Some (Raise (ReadError e), with_request self sb)
          | Some (Return line, sb, _) =>
              Some (Return (msg ++ [line]), with_request self sb)
          end
      end
  end.

End test.

(** * Properties *)

(** ** Byte strings *)

Lemma startswith_app (p rest : bytes) : startswith p (p ++ rest) = true.
Proof.
  induction p as [|c p IH]; simpl; [reflexivity|].
  now rewrite Ascii.eqb_refl, IH.
Qed.

Lemma startswith_prefix (p data : bytes) :
  startswith p data = true -> data = p ++ skipn (length p) data.
Proof.
  revert data; induction p as [|c p IH]; intros [|d ds]; simpl;
    try reflexivity; try discriminate.
  intros H. apply andb_true_iff in H as [Hc Hp].
  apply Ascii.eqb_eq in Hc. subst d. f_equal. now apply IH.
Qed.

Lemma startswith_app_l (p data rest : bytes) :
  startswith p data = true -> startswith p (data ++ rest) = true.
Proof.
  intros H. rewrite (startswith_prefix _ _ H), <- app_assoc.
  apply startswith_app.
Qed.

Lemma startswith_length (p data : bytes) :
  startswith p data = true -> length p <= length data.
Proof.
  intros H. rewrite (startswith_prefix _ _ H), length_app. lia.
Qed.

(** [startswith] only looks at the first [length p] bytes. *)
Lemma startswith_app_short (p data rest : bytes) :
  length p <= length data ->
  startswith p (data ++ rest) = startswith p data.
Proof.
  revert data; induction p as [|c p IH]; intros [|d ds]; simpl;
    try reflexivity; try lia.
  intros H. rewrite IH by lia. reflexivity.
Qed.

Lemma find_bound (sub data : bytes) (idx : nat) :
  find sub data = Some idx -> idx + length sub <= length data.
Proof.
  revert idx; induction data as [|c data IH]; intros idx; simpl.
  - destruct sub; simpl; [|discriminate]. intros [= <-]. simpl. lia.
  - destruct (startswith sub (c :: data)) eqn:E.
    + intros [= <-]. apply startswith_length in E. simpl in *. lia.
    + destruct (find sub data) as [i|]; simpl; [|discriminate].
      intros [= <-]. specialize (IH i eq_refl). lia.
Qed.

(** A match found in a prefix of the data is the match found in the
    data. *)
Lemma find_app (sub data rest : bytes) (idx : nat) :
  find sub data = Some idx -> find sub (data ++ rest) = Some idx.
Proof.
  revert idx; induction data as [|c data IH]; intros idx; simpl.
  - destruct sub; simpl; [|discriminate].
    intros H. destruct rest; exact H.
  - destruct (startswith sub (c :: data)) eqn:E.
    + intros H. change (c :: data ++ rest) with ((c :: data) ++ rest).
      now rewrite (startswith_app_l _ _ rest E).
    + destruct (find sub data) as [i|] eqn:F; simpl; [|discriminate].
      intros H. rewrite (IH i eq_refl). simpl.
      apply find_bound in F.
      change (c :: data ++ rest) with ((c :: data) ++ rest).
      rewrite startswith_app_short, E by (simpl; lia). exact H.
Qed.

(** A match that appears only once more data is appended ends beyond the
    old data. *)
Lemma find_app_new (sub data rest : bytes) (idx : nat) :
  find sub data = None -> find sub (data ++ rest) = Some idx ->
  length data < idx + length sub.
Proof.
  revert idx; induction data as [|c data IH]; intros idx; simpl.
  - destruct sub; simpl; [discriminate|]. intros _ _. lia.
  - destruct (startswith sub (c :: data)) eqn:E; [discriminate|].
    destruct (find sub data) as [i|] eqn:F; simpl; [discriminate|].
    intros _.
    destruct (startswith sub (c :: data ++ rest)) eqn:E'.
    + intros [= <-].
      destruct (Nat.le_gt_cases (length sub) (length (c :: data)))
        as [Hle|Hgt]; [|simpl in *; lia].
      change (c :: data ++ rest) with ((c :: data) ++ rest) in E'.
      rewrite startswith_app_short in E' by exact Hle. congruence.
    + destruct (find sub (data ++ rest)) as [j|] eqn:G; simpl;
        [|discriminate].
      intros [= <-]. specialize (IH j eq_refl eq_refl). lia.
Qed.

(** The line returned for a match at [idx] and what follows it make up the
    data again. *)
Lemma firstn_skipn_app (n : nat) (data rest : bytes) :
  n <= length data ->
  firstn n (data ++ rest) = firstn n data
  /\ skipn n (data ++ rest) = skipn n data ++ rest.
Proof.
  intros H. split.
  - rewrite firstn_app. replace (n - length data) with 0 by lia.
    simpl. apply app_nil_r.
  - rewrite skipn_app. replace (n - length data) with 0 by lia.
    reflexivity.
Qed.

(** ** The buffer *)

Module BytesIOFacts.
Import BytesIO.

(** [seek(0)], [write(data)], [truncate()] replaces the content. *)
Lemma rewrite_content (data : bytes) (s : t) :
  truncate (write data (seek 0 s)) = mk data (length data).
Proof.
  unfold truncate, write, seek; simpl.
  rewrite firstn_app, firstn_all, Nat.sub_diag. simpl.
  now rewrite app_nil_r.
Qed.

(** [seek(0)], [write(data)] with [data] at least as long as the
    content replaces the content too. *)
Lemma overwrite_content (data : bytes) (s : t) :
  length (content s) <= length data ->
  write data (seek 0 s) = mk data (length data).
Proof.
  intros H. unfold write, seek; simpl.
  rewrite skipn_all2 by exact H. now rewrite app_nil_r.
Qed.

(** Writing at the end appends. *)
Lemma write_at_end (data : bytes) (s : t) :
  at_end s ->
  write data s = mk (content s ++ data) (length (content s ++ data)).
Proof.
  unfold at_end, write. intros ->.
  rewrite firstn_all, Nat.sub_diag, length_app. simpl.
  rewrite skipn_all2 by lia. now rewrite app_nil_r.
Qed.

Lemma at_end_mk (data : bytes) : at_end (mk data (length data)).
Proof. reflexivity. Qed.

(** When the position is at the end, it is [0] exactly when there is no
    content. *)
Lemma tell_zero (s : t) :
  at_end s -> (tell s =? 0) = true <-> getvalue s = [].
Proof.
  unfold at_end, tell, getvalue. intros ->. rewrite Nat.eqb_eq.
  apply length_zero_iff_nil.
Qed.

End BytesIOFacts.

Create HintDb pwho.
#[local] Hint Resolve BytesIOFacts.at_end_mk : pwho.

(** ** The socket *)

(** [recv] takes what it delivers from the front of the socket's stream,
    and never more than it was asked for. *)
Lemma socket_recv_spec (n : nat) (s s' : Socket.t) (d : bytes) :
  Socket.recv n s = (d, s') ->
  d ++ Socket.stream s' = Socket.stream s /\ length d <= n.
Proof.
  revert d s'; induction s as [|chunk rest IH]; intros d s'; simpl.
  - intros [= <- <-]. simpl. split; [reflexivity|lia].
  - destruct chunk as [|c chunk]; [exact (IH d s')|].
    destruct (length (c :: chunk) <=? n) eqn:E; intros [= <- <-].
    + apply Nat.leb_le in E. split; [reflexivity|exact E].
    + apply Nat.leb_gt in E. unfold Socket.stream. simpl concat.
      rewrite app_assoc, firstn_skipn. split; [reflexivity|].
      rewrite length_firstn. lia.
Qed.

(** [recv] with a positive size comes back empty only when the socket has
    nothing left. *)
Lemma socket_recv_eof (n : nat) (s s' : Socket.t) :
  0 < n -> Socket.recv n s = ([], s') -> Socket.stream s = [].
Proof.
  intros Hn. revert s'; induction s as [|chunk rest IH]; intros s'; simpl.
  - reflexivity.
  - destruct chunk as [|c chunk]; [exact (IH s')|].
    destruct (length (c :: chunk) <=? n); [discriminate|].
    destruct n; [lia|]. discriminate.
Qed.

(** ** The adapter, one call at a time *)

Lemma unread_buf (self : SocketBuffer) (bs : bytes) :
  buf (unread self bs)
  = BytesIO.mk (bs ++ BytesIO.getvalue (buf self))
               (length (bs ++ BytesIO.getvalue (buf self))).
Proof.
  unfold unread; simpl. apply BytesIOFacts.overwrite_content.
  unfold BytesIO.getvalue. rewrite length_app. lia.
Qed.

Lemma unread_spec (self : SocketBuffer) (bs : bytes) :
  pending (unread self bs) = bs ++ pending self
  /\ BytesIO.at_end (buf (unread self bs))
  /\ sock (unread self bs) = sock self.
Proof.
  unfold pending. rewrite unread_buf. simpl.
  rewrite <- app_assoc. auto with pwho.
Qed.

(** With bytes in the buffer, [recv] serves from the buffer alone. *)
Lemma recv_buffered (self : SocketBuffer) (n : nat) :
  BytesIO.at_end (buf self) ->
  BytesIO.getvalue (buf self) <> [] ->
  recv self n
  = (firstn n (BytesIO.getvalue (buf self)),
     mkSocketBuffer (sock self)
       (BytesIO.mk (skipn n (BytesIO.getvalue (buf self)))
                   (length (skipn n (BytesIO.getvalue (buf self)))))).
Proof.
  intros Hend Hne. unfold recv.
  destruct (BytesIO.tell (buf self) =? 0) eqn:E.
  - apply (BytesIOFacts.tell_zero _ Hend) in E. contradiction.
  - destruct (n <? length (BytesIO.getvalue (buf self))) eqn:L.
    + now rewrite BytesIOFacts.rewrite_content.
    + apply Nat.ltb_ge in L.
      rewrite firstn_all2, skipn_all2 by exact L. reflexivity.
Qed.

(** With an empty buffer, [recv] is the socket's [recv]. *)
Lemma recv_delegated (self : SocketBuffer) (n : nat) :
  BytesIO.at_end (buf self) ->
  BytesIO.getvalue (buf self) = [] ->
  recv self n
  = (fst (Socket.recv n (sock self)),
     mkSocketBuffer (snd (Socket.recv n (sock self))) (buf self)).
Proof.
  intros Hend He. unfold recv.
  apply (BytesIOFacts.tell_zero _ Hend) in He. rewrite He.
  now destruct (Socket.recv n (sock self)).
Qed.

Lemma recv_spec (self self' : SocketBuffer) (n : nat) (d : bytes) :
  BytesIO.at_end (buf self) ->
  recv self n = (d, self') ->
  d ++ pending self' = pending self
  /\ length d <= n
  /\ BytesIO.at_end (buf self').
Proof.
  intros Hend.
  destruct (BytesIO.getvalue (buf self)) as [|c data] eqn:E.
  - rewrite recv_delegated by assumption.
    destruct (Socket.recv n (sock self)) as [d0 sk] eqn:R. simpl.
    intros [= <- <-]. apply socket_recv_spec in R as [Hs Hl].
    unfold pending; simpl. rewrite E. simpl. auto.
  - rewrite recv_buffered by (assumption || congruence).
    intros [= <- <-]. unfold pending; simpl.
    rewrite app_assoc, firstn_skipn, length_firstn.
    repeat split; auto with pwho. lia.
Qed.

Lemma recv_at_end (self : SocketBuffer) (n : nat) :
  BytesIO.at_end (buf self) -> BytesIO.at_end (buf (snd (recv self n))).
Proof.
  intros H. destruct (recv self n) as [d self'] eqn:R.
  now apply (recv_spec _ _ _ _ H) in R.
Qed.

(** ** [read_line] *)

Lemma exceeds_mono (limit : option Z) (m n : nat) :
  m <= n -> exceeds limit n = false -> exceeds limit m = false.
Proof.
  destruct limit as [l|]; simpl; [|reflexivity].
  destruct (l =? 0)%Z; simpl; [reflexivity|].
  rewrite !Z.gtb_ltb, !Z.ltb_ge. lia.
Qed.

Lemma exceeds_positive (l : Z) (n : nat) :
  (0 < l)%Z -> exceeds (Some l) n = (Z.of_nat n >? l)%Z.
Proof.
  intros H. simpl. destruct (Z.eqb_spec l 0); [lia|reflexivity].
Qed.

(** The loop returns or raises within the fuel [read_line] gives it, keeps
    the position of the buffer at its end, and ends as [read_line_post]
    says. *)
Lemma read_line_loop_spec (read_size : nat) (limit : option Z) (fuel : nat) :
  forall (sk : Socket.t) (buffer : BytesIO.t),
    BytesIO.at_end buffer ->
    length (Socket.stream sk) < fuel ->
    exists r sk' buffer',
      read_line_loop fuel sk buffer read_size limit = Some (r, sk', buffer')
      /\ BytesIO.at_end buffer'
      /\ read_line_post read_size limit
           (BytesIO.getvalue buffer ++ Socket.stream sk)
           r (BytesIO.getvalue buffer') (Socket.stream sk').
Proof.
  induction fuel as [|fuel IH]; intros sk buffer Hend Hfuel; [lia|].
  simpl. unfold BytesIO.getvalue.
  destruct (find CRLF (BytesIO.content buffer)) as [idx|] eqn:F.
  - pose proof (find_bound _ _ _ F) as Hb. simpl in Hb.
    destruct (exceeds limit (idx + 2)) eqn:X.
    + exists (Raise (exc.LineTooLong idx (limit_value limit))), sk, buffer.
      simpl. auto 10.
    + rewrite BytesIOFacts.rewrite_content.
      eexists _, sk, _. split; [reflexivity|]. split; [auto with pwho|].
      simpl. exists idx.
      destruct (firstn_skipn_app (idx + 2) (BytesIO.content buffer)
                  (Socket.stream sk)) as [H1 H2]; [lia|].
      rewrite H1, H2. auto using find_app.
  - destruct (exceeds limit (length (BytesIO.content buffer) + 2)) eqn:X.
    + eexists _, sk, buffer. split; [reflexivity|]. simpl. auto 10.
    + destruct (Socket.recv read_size sk) as [d sk1] eqn:R.
      pose proof (socket_recv_spec _ _ _ _ R) as [Hs Hl].
      destruct d as [|c d].
      * eexists _, sk1, buffer. split; [reflexivity|]. simpl in *.
        rewrite Hs. repeat split; auto.
        intros Hpos. pose proof (socket_recv_eof _ _ _ Hpos R). congruence.
      * rewrite (BytesIOFacts.write_at_end _ _ Hend).
        destruct (IH sk1 (BytesIO.mk (BytesIO.content buffer ++ c :: d)
                            (length (BytesIO.content buffer ++ c :: d))))
          as (r & sk' & buffer' & Hr & Hend' & Hpost); [auto with pwho|..].
        { rewrite <- Hs, length_app in Hfuel. simpl in *. lia. }
        exists r, sk', buffer'. split; [exact Hr|]. split; [exact Hend'|].
        unfold BytesIO.getvalue in Hpost. simpl in Hpost.
        now rewrite <- app_assoc, Hs in Hpost.
Qed.

(** [read_line] always returns or raises: the loop is never cut short. *)
Lemma read_line_total (sk : Socket.t) (buffer : BytesIO.t)
    (read_size : nat) (limit : option Z) :
  BytesIO.at_end buffer ->
  exists r sk' buffer',
    read_line sk buffer read_size limit = Some (r, sk', buffer')
    /\ BytesIO.at_end buffer'
    /\ read_line_post read_size limit
         (BytesIO.getvalue buffer ++ Socket.stream sk)
         r (BytesIO.getvalue buffer') (Socket.stream sk').
Proof.
  intros H. apply read_line_loop_spec; [exact H|lia].
Qed.

(** When the stream holds a terminator and the limit, if any, leaves room
    for one byte more than the line, [read_line] returns. *)
Lemma read_line_returns (sk : Socket.t) (buffer : BytesIO.t)
    (read_size : nat) (limit : option Z) (idx : nat) :
  BytesIO.at_end buffer -> 0 < read_size ->
  find CRLF (BytesIO.getvalue buffer ++ Socket.stream sk) = Some idx ->
  exceeds limit (idx + 3) = false ->
  exists sk' buffer',
    read_line sk buffer read_size limit
    = Some (Return (firstn (idx + 2)
                      (BytesIO.getvalue buffer ++ Socket.stream sk)),
            sk', buffer')
    /\ BytesIO.at_end buffer'
    /\ BytesIO.getvalue buffer' ++ Socket.stream sk'
       = skipn (idx + 2) (BytesIO.getvalue buffer ++ Socket.stream sk).
Proof.
  intros Hend Hpos Hfind Hroom.
  destruct (read_line_total sk _ read_size limit Hend)
    as (r & sk' & buffer' & Hr & Hend' & Hpost).
  exists sk', buffer'. rewrite Hr.
  destruct r as [line|[n l|n]]; simpl in Hpost.
  - destruct Hpost as (i & Hi & _ & -> & Hrest).
    assert (i = idx) by congruence. subst i. auto.
  - exfalso. destruct Hpost as (_ & Hx & Hview & Hn).
    rewrite <- Hview in Hfind.
    assert (n + 2 <= idx + 3) as Hle.
    { destruct Hn as [Hn|[Hn ->]].
      - apply find_app with (rest := Socket.stream sk') in Hn.
        assert (n = idx) by congruence. lia.
      - pose proof (find_app_new _ _ _ _ Hn Hfind) as Hlt. simpl in Hlt. lia. }
    rewrite (exceeds_mono _ _ _ Hle Hroom) in Hx. discriminate.
  - exfalso. destruct Hpost as (_ & Hnone & Hview & Hrest).
    rewrite <- Hview, (Hrest Hpos), app_nil_r in Hfind. congruence.
Qed.

(** ** The position of the buffer *)

Lemma recvfrom_snd (peer : bytes * Z) (self : SocketBuffer) (n : nat) :
  snd (recvfrom peer self n) = snd (recv self n).
Proof.
  unfold recvfrom.
  destruct (BytesIO.tell (buf self) =? 0) eqn:E.
  - unfold recv. rewrite E. now destruct (Socket.recv n (sock self)).
  - now destruct (recv self n).
Qed.

Lemma reachable_at_end (self : SocketBuffer) :
  reachable self -> BytesIO.at_end (buf self).
Proof.
  induction 1 as [sk|self bs _ IH|self n _ IH|peer self n _ IH|self _ IH
                 |self read_size limit r sk buffer _ IH Hr].
  - reflexivity.
  - apply unread_spec.
  - now apply recv_at_end.
  - rewrite recvfrom_snd. now apply recv_at_end.
  - reflexivity.
  - destruct (read_line_total (sock self) _ read_size limit IH)
      as (r' & sk' & buffer' & Hr' & Hend & _).
    rewrite Hr in Hr'. now inversion Hr'.
Qed.

(** C10.  Starting from the fresh buffer of [SocketBuffer.__init__], every
    operation that touches the pending buffer ([unread], [recv] and its
    [recvfrom] variant, [close], [read_line]) leaves the position of the
    [BytesIO] at the length of its content; so the test
    [not self.buf.tell()] holds exactly when the buffer has no content. *)
Theorem buffer_position_invariant (self : SocketBuffer) :
  reachable self ->
  BytesIO.tell (buf self) = length (BytesIO.getvalue (buf self))
  /\ (buffer_looks_empty self = true <-> BytesIO.getvalue (buf self) = []).
Proof.
  intros H. apply reachable_at_end in H. split; [exact H|].
  now apply BytesIOFacts.tell_zero.
Qed.

Lemma buffer_position_invariant_witness :
  BytesIO.tell (buf (snd (recv (unread (SocketBuffer_init [hiya]) hiya) 1)))
  = length (BytesIO.getvalue
              (buf (snd (recv (unread (SocketBuffer_init [hiya]) hiya) 1))))
  /\ (buffer_looks_empty
        (snd (recv (unread (SocketBuffer_init [hiya]) hiya) 1)) = true
      <-> BytesIO.getvalue
            (buf (snd (recv (unread (SocketBuffer_init [hiya]) hiya) 1)))
          = []).
Proof.
  apply buffer_position_invariant.
  apply reach_recv, reach_unread, reach_init.
Defined.

(** ** Transparency of the adapter *)

Lemma startswith_skipn_app (d rest : bytes) :
  startswith d (d ++ rest) = true /\ skipn (length d) (d ++ rest) = rest.
Proof.
  split; [apply startswith_app|].
  rewrite skipn_app, skipn_all, Nat.sub_diag. reflexivity.
Qed.

(** Whatever the calls, they replay against the logical stream. *)
Lemma run_replay (ops : list op) :
  forall (self self' : SocketBuffer) (outs : list bytes),
    BytesIO.at_end (buf self) ->
    run ops self = (outs, self') ->
    replay ops outs (pending self) = Some (pending self')
    /\ BytesIO.at_end (buf self').
Proof.
  induction ops as [|[bs|n] ops IH]; intros self self' outs Hend; simpl.
  - intros [= <- <-]. auto.
  - intros Hrun. destruct (unread_spec self bs) as (Hp & He & _).
    rewrite <- Hp. now apply IH.
  - destruct (recv self n) as [d self1] eqn:R.
    destruct (run ops self1) as [ds self2] eqn:Hrun.
    intros [= <- <-].
    destruct (recv_spec _ _ _ _ Hend R) as (Hp & Hl & He).
    rewrite <- Hp.
    destruct (startswith_skipn_app d (pending self1)) as [-> ->].
    apply Nat.leb_le in Hl. rewrite Hl. simpl. now apply IH.
Qed.

(** A run of [recv]s delivers the front of the logical stream. *)
Lemma run_recvs (ns : list nat) :
  forall (self self' : SocketBuffer) (outs : list bytes),
    BytesIO.at_end (buf self) ->
    run (map Recv ns) self = (outs, self') ->
    concat outs ++ pending self' = pending self.
Proof.
  induction ns as [|n ns IH]; intros self self' outs Hend; simpl.
  - now intros [= <- <-].
  - destruct (recv self n) as [d self1] eqn:R.
    destruct (run (map Recv ns) self1) as [ds self2] eqn:Hrun.
    intros [= <- <-].
    destruct (recv_spec _ _ _ _ Hend R) as (Hp & _ & He).
    simpl. rewrite <- app_assoc, (IH _ _ _ He Hrun). exact Hp.
Qed.

(** C1, the claim as stated fails.  After [unread(b'xy')] on a fresh
    adapter whose socket has [abcd] to deliver, [recv(5)] returns [xy]
    alone: fewer bytes than asked for, nothing of the socket's data, and
    the socket untouched. *)
Lemma adapter_transparency_counterexample :
  recv (unread (SocketBuffer_init [b "abcd"]) (b "xy")) 5
  = (b "xy", mkSocketBuffer [b "abcd"] (BytesIO.mk [] 0))
  /\ length (b "xy") < 5
  /\ fst (recv (unread (SocketBuffer_init [b "abcd"]) (b "xy")) 5)
     <> b "xy" ++ firstn (5 - length (b "xy")) (Socket.stream [b "abcd"]).
Proof.
  repeat split; [simpl; lia|discriminate].
Qed.

(** C1, amended.  Wrap any socket.  After [unread(bs)] and any number of
    [recv]s, what the [recv]s delivered, followed by what is still
    pending, is [bs] followed by the socket's stream.  Whatever calls of
    [unread] and [recv] are made, what the [recv]s delivered replays
    against the socket's stream with the unread bytes put in front of it
    as they were restored.  And from the adapter so reached, [unread(bs)]
    then [recv(n)] takes [d] from the front of [bs] followed by the
    logical stream, never more than [n] bytes: [bs[:n]] when
    [n <= len(bs)]; when [n > len(bs)] and [bs] is not empty, buffered
    bytes only, all of [bs] followed by at most [n - len(bs)] of the bytes
    that were pending in the buffer before, so [bs] exactly when there
    were none; with bytes in the buffer the socket is left alone; and once
    a [recv] has drained the buffer, the next one is the socket's. *)
Theorem adapter_transparency (sk : Socket.t) (ops : list op)
    (bs : bytes) (n m : nat) (ns : list nat) :
  (let (outs, self) := run (Unread bs :: map Recv ns) (SocketBuffer_init sk) in
   concat outs ++ pending self = bs ++ Socket.stream sk)
  /\ let (outs, self) := run ops (SocketBuffer_init sk) in
     replay ops outs (Socket.stream sk) = Some (pending self)
     /\ let (d, self') := recv (unread self bs) n in
        d ++ pending self' = bs ++ pending self
        /\ length d <= n
        /\ (n <= length bs -> d = firstn n bs)
        /\ (length bs < n -> bs <> [] ->
            d = bs ++ firstn (n - length bs) (BytesIO.getvalue (buf self))
            /\ sock self' = sock self)
        /\ (BytesIO.getvalue (buf (unread self bs)) <> [] ->
            d = firstn n (bs ++ BytesIO.getvalue (buf self))
            /\ sock self' = sock self)
        /\ (BytesIO.getvalue (buf self) = [] -> bs <> [] ->
            length bs <= n ->
            d = bs
            /\ fst (recv self' m) = fst (Socket.recv m (sock self))).
Proof.
  split.
  { simpl.
    destruct (run (map Recv ns) (unread (SocketBuffer_init sk) bs))
      as [outs self] eqn:Hrun.
    destruct (unread_spec (SocketBuffer_init sk) bs) as (Hp & He & _).
    rewrite (run_recvs ns _ _ _ He Hrun). exact Hp. }
  destruct (run ops (SocketBuffer_init sk)) as [outs self] eqn:Hrun.
  destruct (run_replay ops (SocketBuffer_init sk) _ _ eq_refl Hrun)
    as [Hreplay Hend].
  split; [exact Hreplay|].
  destruct (unread_spec self bs) as (Hp & He & Hs).
  destruct (recv (unread self bs) n) as [d self'] eqn:R.
  destruct (recv_spec _ _ _ _ He R) as (Hd & Hl & He').
  rewrite Hp in Hd.
  assert (BytesIO.getvalue (buf (unread self bs)) <> [] ->
          d = firstn n (bs ++ BytesIO.getvalue (buf self))
          /\ self' = mkSocketBuffer (sock self)
                       (BytesIO.mk
                          (skipn n (bs ++ BytesIO.getvalue (buf self)))
                          (length
                             (skipn n (bs ++ BytesIO.getvalue (buf self))))))
    as Hbuffered.
  { intros Hne. rewrite recv_buffered in R by assumption.
    rewrite unread_buf in R. simpl in R. inversion R; subst. auto. }
  split; [exact Hd|]. split; [exact Hl|]. split; [|split; [|split]].
  - intros Hn.
    destruct (list_eq_dec ascii_dec
                (BytesIO.getvalue (buf (unread self bs))) []) as [E|E].
    + rewrite unread_buf in E. simpl in E.
      apply app_eq_nil in E as [-> _]. simpl in *.
      destruct d; [now rewrite firstn_nil|simpl in Hl; lia].
    + destruct (Hbuffered E) as [-> _].
      rewrite firstn_app. replace (n - length bs) with 0 by lia.
      simpl. apply app_nil_r.
  - intros Hn Hbs.
    destruct Hbuffered as [-> ->].
    { rewrite unread_buf. simpl. now destruct bs. }
    rewrite firstn_app, firstn_all2 by lia. auto.
  - intros Hne. destruct (Hbuffered Hne) as [-> ->]. auto.
  - intros Hempty Hbs Hn.
    destruct Hbuffered as [-> ->].
    { rewrite unread_buf. simpl. now destruct bs. }
    rewrite Hempty, app_nil_r, firstn_all2, skipn_all2 by exact Hn.
    split; [reflexivity|]. now rewrite recv_delegated.
Qed.

Lemma adapter_transparency_witness :
  fst (recv (unread (snd (run [Recv 2; Unread (b "xy"); Recv 5]
                              (SocketBuffer_init [b "abcd"])))
                    (b "hello")) 3)
  = b "hel".
Proof.
  pose proof (proj2 (adapter_transparency [b "abcd"]
                       [Recv 2; Unread (b "xy"); Recv 5] (b "hello") 3 0 []))
    as H.
  cbv in H. destruct H as (_ & _ & _ & H & _).
  cbv. apply H. lia.
Defined.

(** ** [read_line]: the line and the limit *)

(** C3.  When the logical stream (the pending content of the buffer, then
    the chunks of the socket, however they are cut) holds a CRLF,
    [read_line] ends; without a limit it returns; and whenever it returns,
    the line is the stream up to and including the first CRLF, and all
    that follows the terminator is still to be read: the bytes taken off
    the socket are in the pending buffer, positioned at its end. *)
Theorem read_line_returns_first_line (sk : Socket.t) (buffer : BytesIO.t)
    (read_size : nat) (limit : option Z) (idx : nat) :
  BytesIO.at_end buffer -> 0 < read_size ->
  find CRLF (BytesIO.getvalue buffer ++ Socket.stream sk) = Some idx ->
  exists r sk' buffer',
    read_line sk buffer read_size limit = Some (r, sk', buffer')
    /\ (limit = None ->
        r = Return (firstn (idx + 2)
                      (BytesIO.getvalue buffer ++ Socket.stream sk)))
    /\ (forall line, r = Return line ->
        line = firstn (idx + 2) (BytesIO.getvalue buffer ++ Socket.stream sk)
        /\ BytesIO.getvalue buffer' ++ Socket.stream sk'
           = skipn (idx + 2) (BytesIO.getvalue buffer ++ Socket.stream sk)
        /\ BytesIO.at_end buffer').
Proof.
  intros Hend Hpos Hfind.
  destruct (read_line_total sk _ read_size limit Hend)
    as (r & sk' & buffer' & Hr & Hend' & Hpost).
  exists r, sk', buffer'. split; [exact Hr|]. split.
  - intros ->.
    destruct (read_line_returns sk _ read_size None idx Hend Hpos Hfind
                eq_refl) as (sk1 & buffer1 & Hr1 & _).
    congruence.
  - intros line ->. simpl in Hpost.
    destruct Hpost as (i & Hi & _ & -> & Hrest).
    assert (i = idx) by congruence. subst i. auto.
Qed.

Lemma read_line_returns_first_line_witness :
  exists sk' buffer',
    read_line [b "PROXY" ++ [CR]; [LF] ++ b "hi"; b "ya"] BytesIO.empty
              default_read_size None
    = Some (Return (b "PROXY" ++ CRLF), sk', buffer')
    /\ BytesIO.getvalue buffer' ++ Socket.stream sk' = b "hiya".
Proof.
  destruct (read_line_returns_first_line
              [b "PROXY" ++ [CR]; [LF] ++ b "hi"; b "ya"] BytesIO.empty
              default_read_size None 5)
    as (r & sk' & buffer' & Hr & Hret & Hline).
  - reflexivity.
  - unfold default_read_size. lia.
  - reflexivity.
  - exists sk', buffer'. rewrite (Hret eq_refl) in Hr.
    split; [exact Hr|]. apply (Hline _ (Hret eq_refl)).
Defined.

(** C4, the claim as stated fails, with limit 10.  Nine bytes without a
    terminator are refused with [LineTooLong(9, 10)] although no more than
    the limit are accumulated: the test is [len(data) + 2 > limit], room
    for the terminator included.  By the same test a line of exactly 10
    bytes whose CR and LF arrive in separate segments is refused, although
    the same line is returned when it arrives whole
    ([read_line_at_limit]). *)
Lemma read_line_limit_counterexample :
  (read_line nine_unterminated BytesIO.empty default_read_size (Some 10%Z)
   = Some (Raise (exc.LineTooLong 9 10), [b "0" ++ CRLF],
           BytesIO.mk (b "123456789") 9)
   /\ (Z.of_nat 9 <= 10)%Z)
  /\ (find CRLF (Socket.stream split_terminator) = Some 8
      /\ (Z.of_nat (8 + 2) <= 10)%Z
      /\ read_line split_terminator BytesIO.empty default_read_size
                   (Some 10%Z)
         = Some (Raise (exc.LineTooLong 9 10), [[LF]],
                 BytesIO.mk (b "12345678" ++ [CR]) 9)).
Proof.
  repeat split; try reflexivity; simpl; lia.
Qed.

(** C4, amended.  For a positive limit [L], [read_line] raises
    [LineTooLong(n, L)] only when the [n] bytes accumulated before a
    terminator and the two bytes of the terminator together exceed [L];
    it returns the line whenever the line with its CRLF is shorter than
    [L], and also when it is at most [L] and already whole in the pending
    buffer. *)
Theorem read_line_limit (sk : Socket.t) (buffer : BytesIO.t)
    (read_size : nat) (L : Z) :
  (0 < L)%Z -> BytesIO.at_end buffer -> 0 < read_size ->
  (forall n l sk' buffer',
      read_line sk buffer read_size (Some L)
      = Some (Raise (exc.LineTooLong n l), sk', buffer') ->
      l = L /\ (Z.of_nat n + 2 > L)%Z
      /\ n <= length (BytesIO.getvalue buffer'))
  /\ (forall idx,
      find CRLF (BytesIO.getvalue buffer ++ Socket.stream sk) = Some idx ->
      (Z.of_nat (idx + 2) < L)%Z ->
      exists sk' buffer',
        read_line sk buffer read_size (Some L)
        = Some (Return (firstn (idx + 2)
                          (BytesIO.getvalue buffer ++ Socket.stream sk)),
                sk', buffer'))
  /\ (forall idx,
      find CRLF (BytesIO.getvalue buffer) = Some idx ->
      (Z.of_nat (idx + 2) <= L)%Z ->
      exists buffer',
        read_line sk buffer read_size (Some L)
        = Some (Return (firstn (idx + 2) (BytesIO.getvalue buffer)),
                sk, buffer')).
Proof.
  intros HL Hend Hpos.
  destruct (read_line_total sk _ read_size (Some L) Hend)
    as (r & sk1 & buffer1 & Hr1 & _ & Hpost).
  split; [|split].
  - intros n l sk' buffer' H. rewrite Hr1 in H. inversion H; subst.
    destruct Hpost as (Hl & Hx & _ & Hn). split; [exact Hl|].
    rewrite exceeds_positive in Hx by exact HL. apply Z.gtb_gt in Hx.
    split; [lia|].
    destruct Hn as [Hn|[_ ->]]; [|lia].
    apply find_bound in Hn. lia.
  - intros idx Hfind Hlt.
    destruct (read_line_returns sk _ read_size (Some L) idx Hend Hpos Hfind)
      as (sk' & buffer' & Hr & _); [|eauto].
    rewrite exceeds_positive, Z.gtb_ltb by exact HL. apply Z.ltb_ge. lia.
  - intros idx Hfind Hle. unfold read_line. simpl. rewrite Hfind.
    replace (negb (L =? 0)%Z && (Z.of_nat (idx + 2) >? L)%Z) with false.
    + eauto.
    + symmetry. apply andb_false_iff. right.
      rewrite Z.gtb_ltb. apply Z.ltb_ge. lia.
Qed.

Lemma read_line_limit_witness :
  exists sk' buffer',
    read_line [b "1234567" ++ [CR]; [LF]] BytesIO.empty default_read_size
              (Some 10%Z)
    = Some (Return (b "1234567" ++ CRLF), sk', buffer').
Proof.
  destruct (read_line_limit [b "1234567" ++ [CR]; [LF]] BytesIO.empty
              default_read_size 10) as (_ & Hshort & _).
  - lia.
  - reflexivity.
  - unfold default_read_size. lia.
  - apply (Hshort 7); [reflexivity|simpl; lia].
Defined.

(** ** [parse_line] *)

Lemma bytes_eqb_eq (x y : bytes) : bytes_eqb x y = true <-> x = y.
Proof.
  unfold bytes_eqb. destruct (list_eq_dec ascii_dec x y); split;
    congruence.
Qed.

(** The conversions of the two ports decide the last step. *)
Lemma parse_ports_return (line src dst p4 p5 : bytes) (info : ProxyInfo) :
  parse_ports line src dst p4 p5 = Return info ->
  source_address info = src /\ destination_address info = dst
  /\ py_int p4 = Some (source_port info)
  /\ py_int p5 = Some (destination_port info).
Proof.
  unfold parse_ports.
  destruct (py_int p4); [|discriminate].
  destruct (py_int p5); [|discriminate].
  intros [= <-]. simpl. auto.
Qed.

(** The address check passes exactly when [inet_pton] returns for both
    addresses. *)
Lemma check_addresses_return (family : address_family)
    (inet line src dst : bytes) (u : unit) :
  check_addresses family inet line src dst = Return u
  <-> inet_pton family src = Return tt /\ inet_pton family dst = Return tt.
Proof.
  unfold check_addresses. destruct u. split.
  - destruct (inet_pton family src) as [[]|[]]; try discriminate.
    destruct (inet_pton family dst) as [[]|[]]; try discriminate. auto.
  - now intros [-> ->].
Qed.

(** Past the first four checks, [parse_line] is [parse_ports]. *)
Lemma parse_line_checked (line : bytes) :
  startswith PROXY line = true -> endswith CRLF line = true ->
  length (fields line) = 6 ->
  addresses_ok (nth 1 (fields line) []) (nth 2 (fields line) [])
               (nth 3 (fields line) []) ->
  parse_line line
  = parse_ports line (nth 2 (fields line) []) (nth 3 (fields line) [])
                (nth 4 (fields line) []) (nth 5 (fields line) []).
Proof.
  intros Hp Ht Hn Ha. unfold parse_line. rewrite Hp, Ht, Hn.
  cbn [negb Nat.eqb].
  destruct Ha as [(Hi & Hs & Hd)|(Hi & Hs & Hd)]; rewrite Hi;
    rewrite (proj2 (check_addresses_return _ _ _ _ _ tt) (conj Hs Hd));
    reflexivity.
Qed.

(** Everything [parse_line] has checked when it returns. *)
Lemma parse_line_return (line : bytes) (info : ProxyInfo) :
  parse_line line = Return info ->
  startswith PROXY line = true /\ endswith CRLF line = true
  /\ length (fields line) = 6
  /\ addresses_ok (nth 1 (fields line) []) (nth 2 (fields line) [])
                  (nth 3 (fields line) [])
  /\ parse_ports line (nth 2 (fields line) []) (nth 3 (fields line) [])
                 (nth 4 (fields line) []) (nth 5 (fields line) [])
     = Return info.
Proof.
  unfold parse_line, addresses_ok.
  destruct (startswith PROXY line); [|discriminate].
  destruct (endswith CRLF line); [|discriminate]. cbn [negb].
  destruct (Nat.eqb_spec (length (fields line)) 6) as [Hn|]; [|discriminate].
  cbn [negb].
  destruct (bytes_eqb (nth 1 (fields line) []) TCP4) eqn:E4.
  - apply bytes_eqb_eq in E4.
    destruct (check_addresses AF_INET (nth 1 (fields line) []) line
                (nth 2 (fields line) []) (nth 3 (fields line) []))
      as [u|e] eqn:Hc; [|discriminate].
    apply check_addresses_return in Hc. intuition auto.
  - destruct (bytes_eqb (nth 1 (fields line) []) TCP6) eqn:E6;
      [|discriminate].
    apply bytes_eqb_eq in E6.
    destruct (check_addresses AF_INET6 (nth 1 (fields line) []) line
                (nth 2 (fields line) []) (nth 3 (fields line) []))
      as [u|e] eqn:Hc; [|discriminate].
    apply check_addresses_return in Hc. intuition auto.
Qed.



Lemma split_head (sep c : ascii) (x : bytes) :
  Ascii.eqb c sep = false ->
  nth 0 (split sep (c :: x)) [] = c :: nth 0 (split sep x) [].
Proof.
  intros H. simpl. rewrite H. now destruct (split sep x).
Qed.

(** A line that starts with [PROXY] and ends with CRLF has a first field
    that starts with [PROXY]. *)
Lemma first_field_prefix (line : bytes) :
  startswith PROXY line = true -> endswith CRLF line = true ->
  startswith PROXY (nth 0 (fields line) []) = true.
Proof.
  intros Hp Ht. apply startswith_prefix in Hp.
  destruct (skipn (length PROXY) line) as [|c [|c' r]]; rewrite Hp in Ht |- *.
  - discriminate.
  - unfold endswith in Ht. simpl in Ht. discriminate.
  - unfold fields. simpl length. simpl firstn.
    rewrite !split_head by reflexivity. reflexivity.
Qed.

(** C6, the claim as stated fails.  [parse_line] tests that the line
    starts with the bytes [PROXY], not that its first field is the token:
    a line whose first field is [PROXYZ] parses. *)
Lemma parse_line_grammar_counterexample :
  parse_line proxyz_line = Return tcp4_info
  /\ nth 0 (fields proxyz_line) [] = b "PROXYZ"
  /\ nth 0 (fields proxyz_line) [] <> PROXY.
Proof.
  repeat split; try reflexivity. discriminate.
Qed.

(** C6, amended.  Whenever [parse_line] returns, the line ends with CRLF,
    the line without its terminator splits on single spaces into exactly 6
    fields, and the line, hence its first field, starts with the bytes
    [PROXY]; and a line that does not start with [PROXY] is refused with
    the [InvalidLine] that names the missing prefix. *)
Theorem parse_line_grammar (line : bytes) :
  (forall info, parse_line line = Return info ->
     endswith CRLF line = true
     /\ length (fields line) = 6
     /\ startswith PROXY line = true
     /\ startswith PROXY (nth 0 (fields line) []) = true)
  /\ (startswith PROXY line = false ->
      parse_line line
      = Raise (ParseError (exc.InvalidLine missing_prefix line))).
Proof.
  split.
  - intros info H.
    apply parse_line_return in H as (Hp & Ht & Hn & _).
    auto using first_field_prefix.
  - intros H. unfold parse_line. now rewrite H.
Qed.

Lemma parse_line_grammar_witness :
  parse_line hiya = Raise (ParseError (exc.InvalidLine missing_prefix hiya))
  /\ length (fields tcp4_line) = 6.
Proof.
  split.
  - apply (proj2 (parse_line_grammar hiya)). reflexivity.
  - apply (proj1 (parse_line_grammar tcp4_line) tcp4_info). reflexivity.
Defined.

(** C7.  For a line that passes the prefix, terminator, field count,
    family and address checks, [parse_line] raises exactly when one of the
    two port fields does not convert with [int], and what it raises is an
    [InvalidLine]; when both convert, the integers are returned as they
    are, whatever their range. *)
Theorem parse_line_ports (line p0 inet src dst sp dp : bytes) :
  startswith PROXY line = true -> endswith CRLF line = true ->
  fields line = [p0; inet; src; dst; sp; dp] ->
  addresses_ok inet src dst ->
  ((exists e : exception, parse_line line = Raise e)
   <-> (py_int sp = None \/ py_int dp = None))
  /\ (forall e : exception, parse_line line = Raise e ->
      exists invalid : exc.ParseError, e = ParseError invalid)
  /\ (forall m n : Z, py_int sp = Some m -> py_int dp = Some n ->
      parse_line line = Return (mkProxyInfo src m dst n)).
Proof.
  intros Hp Ht Hf Ha.
  rewrite (parse_line_checked line Hp Ht) by (rewrite Hf; auto).
  rewrite Hf. simpl nth. unfold parse_ports.
  destruct (py_int sp) as [m|]; [destruct (py_int dp) as [n|]|].
  - split; [|split].
    + split; [intros [e He]; discriminate|intros [H|H]; discriminate].
    + discriminate.
    + now intros m' n' [= <-] [= <-].
  - split; [split; eauto|split; [|discriminate]].
    intros e [= <-]. eauto.
  - split; [split; eauto|split; [|discriminate]].
    intros e [= <-]. eauto.
Qed.

Lemma parse_line_ports_witness :
  parse_line big_port_line
  = Return (mkProxyInfo (b "192.168.0.1") 70000 (b "192.168.0.11") 443).
Proof.
  apply (parse_line_ports big_port_line
           PROXY TCP4 (b "192.168.0.1") (b "192.168.0.11")
           (b "70000") (b "443")); try reflexivity.
  left. repeat split; reflexivity.
Defined.

(** Every path of [parse_line] but the port one stores the offending line
    in the exception. *)
Lemma invalid_line_payload (line : bytes) (e : exc.ParseError) :
  parse_line line = Raise (ParseError e) ->
  exc.line e = line
  \/ (exc.line e = invalid_port
      /\ exc.message e = line ++ b " - " ++ invalid_port).
Proof.
  unfold parse_line, parse_ports, check_addresses, inet_pton.
  repeat match goal with
         | |- context [if ?c then _ else _] => destruct c
         | |- context [match ?c with Some _ => _ | None => _ end] =>
             destruct c
         end;
    try discriminate; intros [= <-]; simpl; auto.
Qed.

(** C8, the code at a line whose source port is not an integer.  The
    [InvalidLine] it raises has the reason where the line belongs and the
    line where the reason belongs: its [line] attribute is
    ['Invalid port'], not the offending line. *)
Theorem invalid_port_payload :
  exists e,
    parse_line bad_port_line = Raise (ParseError e)
    /\ exc.line e = b "Invalid port"
    /\ exc.line e <> bad_port_line
    /\ exc.message e = bad_port_line ++ b " - Invalid port".
Proof.
  eexists. split; [reflexivity|]. repeat split. discriminate.
Qed.

(** ** [proxy_protocol] *)

(** [proxy_protocol] under each of the two policies it accepts. *)
Lemma proxy_protocol_unread (hook : handler -> ProxyInfo -> bool)
    (self : handler) (default : value) (limit : option Z)
    (authenticate : bool) :
  proxy_protocol hook self (b "unread") default limit authenticate
  = match read_line (sock (wrap_request self)) (buf (wrap_request self))
                    default_read_size limit with
    | None => None
    | Some (Raise e, sk, buffer) =>
        Some (Return (resolve_default self default),
              with_request self (mkSocketBuffer sk buffer))
    | Some (Return line, sk, buffer) =>
        match parse_line line with
        | Raise (ParseError e) =>
            Some (Return (resolve_default self default),
                  with_request self (unread (mkSocketBuffer sk buffer) line))
        | Raise e =>
            Some (Raise e, with_request self (mkSocketBuffer sk buffer))
        | Return info =>
            if authenticate
               && negb (hook (with_request self (mkSocketBuffer sk buffer))
                             info)
            then Some (Return (resolve_default self default),
                       with_request self (mkSocketBuffer sk buffer))
            else Some (Return (PyInfo info),
                       with_request self (mkSocketBuffer sk buffer))
        end
    end.
Proof. reflexivity. Qed.

Lemma proxy_protocol_raise (hook : handler -> ProxyInfo -> bool)
    (self : handler) (default : value) (limit : option Z)
    (authenticate : bool) :
  proxy_protocol hook self (b "raise") default limit authenticate
  = match read_line (sock (wrap_request self)) (buf (wrap_request self))
                    default_read_size limit with
    | None => None
    | Some (Raise e, sk, buffer) =>
        Some (Raise (ReadError e),
              with_request self (mkSocketBuffer sk buffer))
    | Some (Return line, sk, buffer) =>
        match parse_line line with
        | Raise (ParseError e) =>
            Some (Raise (ParseError e),
                  with_request self (mkSocketBuffer sk buffer))
        | Raise e =>
            Some (Raise e, with_request self (mkSocketBuffer sk buffer))
        | Return info =>
            if authenticate
               && negb (hook (with_request self (mkSocketBuffer sk buffer))
                             info)
            then Some (Return (resolve_default self default),
                       with_request self (mkSocketBuffer sk buffer))
            else Some (Return (PyInfo info),
                       with_request self (mkSocketBuffer sk buffer))
        end
    end.
Proof. reflexivity. Qed.

(** A [ReadError] loses nothing: what [read_line] took off the socket
    before it raised is in the adapter's own buffer. *)
Lemma read_error_keeps_stream (sb : SocketBuffer) (read_size : nat)
    (limit : option Z) (e : exc.ReadError) (sk : Socket.t)
    (buffer : BytesIO.t) :
  BytesIO.at_end (buf sb) ->
  read_line (sock sb) (buf sb) read_size limit = Some (Raise e, sk, buffer) ->
  pending (mkSocketBuffer sk buffer) = pending sb
  /\ BytesIO.at_end buffer.
Proof.
  intros Hend Hr.
  destruct (read_line_total (sock sb) _ read_size limit Hend)
    as (r & sk' & buffer' & Hr' & Hend' & Hpost).
  rewrite Hr in Hr'. inversion Hr'; subst. split; [|exact Hend'].
  unfold pending. simpl. destruct e; simpl in Hpost; apply Hpost.
Qed.

(** C2.  A connection that sends only [hiya\r\n], probed under "unread",
    yields the default, and the next read yields [hiya\r\n].  In general
    [read_line] ends, and by the way it ends: on a [ReadError], "unread"
    returns the default and "raise" raises the error, the adapter being as
    [read_line] left it, nothing unread; on a [ParseError] of the line,
    "unread" returns the default after [unread(line)], which makes the
    logical stream of the adapter what it was before the probe, and
    "raise" raises the error with the adapter as [read_line] left it, the
    line gone from its stream.  (What [parse_line] lets through that is
    not a [ParseError], the [TypeError] of [inet_pton], goes through
    [proxy_protocol] under either policy.) *)
Theorem proxy_protocol_error_policy :
  (exists self',
     proxy_protocol proxy_authenticate (connection [hiya] a_peer)
                    (b "unread") PyNone (Some 1024%Z) false
     = Some (Return PyNone, self')
     /\ fst (recv (wrap_request self') 4096) = hiya)
  /\ forall (hook : handler -> ProxyInfo -> bool) (self : handler)
       (default : value) (limit : option Z) (authenticate : bool),
      BytesIO.at_end (buf (wrap_request self)) ->
      exists r sk buffer,
        read_line (sock (wrap_request self)) (buf (wrap_request self))
                  default_read_size limit
        = Some (r, sk, buffer)
        /\ match r with
           | Raise e =>
               proxy_protocol hook self (b "unread") default limit
                              authenticate
               = Some (Return (resolve_default self default),
                       with_request self (mkSocketBuffer sk buffer))
               /\ proxy_protocol hook self (b "raise") default limit
                                 authenticate
                  = Some (Raise (ReadError e),
                          with_request self (mkSocketBuffer sk buffer))
           | Return line =>
               match parse_line line with
               | Raise (ParseError e) =>
                   proxy_protocol hook self (b "unread") default limit
                                  authenticate
                   = Some (Return (resolve_default self default),
                           with_request self
                             (unread (mkSocketBuffer sk buffer) line))
                   /\ pending (unread (mkSocketBuffer sk buffer) line)
                      = pending (wrap_request self)
                   /\ BytesIO.at_end
                        (buf (unread (mkSocketBuffer sk buffer) line))
                   /\ proxy_protocol hook self (b "raise") default limit
                                     authenticate
                      = Some (Raise (ParseError e),
                              with_request self (mkSocketBuffer sk buffer))
                   /\ line ++ pending (mkSocketBuffer sk buffer)
                      = pending (wrap_request self)
               | Raise e =>
                   proxy_protocol hook self (b "unread") default limit
                                  authenticate
                   = Some (Raise e,
                           with_request self (mkSocketBuffer sk buffer))
                   /\ proxy_protocol hook self (b "raise") default limit
                                     authenticate
                      = Some (Raise e,
                              with_request self (mkSocketBuffer sk buffer))
               | Return _ => True
               end
           end.
Proof.
  split.
  - eexists. split; reflexivity.
  - intros hook self default limit authenticate Hend.
    destruct (read_line_total (sock (wrap_request self)) _
                default_read_size limit Hend)
      as (r & sk & buffer & Hr & Hend' & Hpost).
    exists r, sk, buffer. split; [exact Hr|].
    rewrite proxy_protocol_unread, proxy_protocol_raise, Hr.
    destruct r as [line|e]; [|auto].
    destruct (parse_line line) as [info|[| | |e|e]]; [exact I|auto..|].
    destruct Hpost as (idx & _ & _ & -> & Hrest).
    destruct (unread_spec (mkSocketBuffer sk buffer)
                (firstn (idx + 2) (pending (wrap_request self))))
      as (Hp & He & _).
    assert (firstn (idx + 2) (pending (wrap_request self))
              ++ pending (mkSocketBuffer sk buffer)
            = pending (wrap_request self)) as Hline.
    { unfold pending at 2. simpl. unfold pending. rewrite Hrest.
      apply firstn_skipn. }
    unfold pending at 1 in Hp. rewrite Hline in Hp. auto.
Qed.

Lemma proxy_protocol_error_policy_witness :
  exists r sk buffer,
    read_line [b "PROXY"; b " what" ++ CRLF ++ b "hiya"] BytesIO.empty
              default_read_size None
    = Some (r, sk, buffer)
    /\ match r with
       | Raise e => True
       | Return line =>
           match parse_line line with
           | Raise (ParseError e) =>
               proxy_protocol proxy_authenticate
                 (connection [b "PROXY"; b " what" ++ CRLF ++ b "hiya"]
                             a_peer)
                 (b "unread") PyNone None false
               = Some (Return PyNone,
                       with_request
                         (connection
                            [b "PROXY"; b " what" ++ CRLF ++ b "hiya"]
                            a_peer)
                         (unread (mkSocketBuffer sk buffer) line))
               /\ pending (unread (mkSocketBuffer sk buffer) line)
                  = b "PROXY what" ++ CRLF ++ b "hiya"
           | _ => True
           end
       end.
Proof.
  destruct (proj2 proxy_protocol_error_policy proxy_authenticate
              (connection [b "PROXY"; b " what" ++ CRLF ++ b "hiya"] a_peer)
              PyNone None false eq_refl)
    as (r & sk & buffer & Hr & H).
  exists r, sk, buffer. split; [exact Hr|].
  destruct r as [line|e]; [|exact I].
  destruct (parse_line line) as [info|[| | |e|e]]; try exact I.
  split; apply H.
Defined.

(** ** Authentication *)

(** C9.  The default hook accepts exactly when the destination address
    and port of the record are the address and port of the peer.  And when
    [proxy_protocol] is called with [authenticate] set, under either
    policy, and the hook refuses the record parsed from the line, it
    returns the default: the record is not returned and nothing is
    raised. *)
Theorem authentication_fails_closed :
  (forall (self : handler) (info : ProxyInfo),
      proxy_authenticate self info = true
      <-> (destination_address info, destination_port info)
          = client_address self)
  /\ (forall (hook : handler -> ProxyInfo -> bool) (self : handler)
        (error : bytes) (default : value) (limit : option Z)
        (line : bytes) (sk : Socket.t) (buffer : BytesIO.t)
        (info : ProxyInfo),
      error = b "raise" \/ error = b "unread" ->
      read_line (sock (wrap_request self)) (buf (wrap_request self))
                default_read_size limit
      = Some (Return line, sk, buffer) ->
      parse_line line = Return info ->
      hook (with_request self (mkSocketBuffer sk buffer)) info = false ->
      proxy_protocol hook self error default limit true
      = Some (Return (resolve_default self default),
              with_request self (mkSocketBuffer sk buffer))).
Proof.
  split.
  - intros self info. unfold proxy_authenticate.
    destruct (client_address self) as [host port].
    rewrite andb_true_iff, bytes_eqb_eq, Z.eqb_eq.
    split; [intros [-> ->]; reflexivity|intros [= -> ->]; auto].
  - intros hook self error default limit line sk buffer info
           [->| ->] Hr Hparse Hhook.
    + now rewrite proxy_protocol_raise, Hr, Hparse, Hhook.
    + now rewrite proxy_protocol_unread, Hr, Hparse, Hhook.
Qed.

Lemma authentication_fails_closed_witness :
  proxy_protocol proxy_authenticate (connection [tcp4_line ++ hiya] a_peer)
                 (b "unread") PyNone (Some 1024%Z) true
  = Some (Return PyNone,
          with_request (connection [tcp4_line ++ hiya] a_peer)
            (mkSocketBuffer [] (BytesIO.mk hiya 6))).
Proof.
  apply (proj2 authentication_fails_closed proxy_authenticate
           (connection [tcp4_line ++ hiya] a_peer)
           (b "unread") PyNone (Some 1024%Z)
           tcp4_line [] (BytesIO.mk hiya 6) tcp4_info).
  - right. reflexivity.
  - reflexivity.
  - reflexivity.
  - reflexivity.
Defined.

(** ** The cases of the test suite *)

Example test_parse_empty :
  parse_line [] = Raise (ParseError (exc.InvalidLine missing_prefix [])).
Proof. reflexivity. Qed.

Example test_parse_crlf :
  parse_line CRLF = Raise (ParseError (exc.InvalidLine missing_prefix CRLF)).
Proof. reflexivity. Qed.

Example test_parse_no_terminal :
  parse_line PROXY
  = Raise (ParseError (exc.InvalidLine missing_terminal PROXY)).
Proof. reflexivity. Qed.

Example test_parse_unknown :
  parse_line (b "PROXY UNKNOWN" ++ CRLF)
  = Raise (ParseError (exc.InvalidLine expected_6_parts
                         (b "PROXY UNKNOWN" ++ CRLF))).
Proof. reflexivity. Qed.

Example test_parse_bad_address :
  parse_line (b "PROXY TCP4 sry 192.168.0.11 56324 443" ++ CRLF)
  = Raise (ParseError
             (exc.InvalidLine (invalid_addresses TCP4)
                (b "PROXY TCP4 sry 192.168.0.11 56324 443" ++ CRLF))).
Proof. reflexivity. Qed.

Example test_parse_tcp6 : parse_line tcp6_line = Return tcp6_info.
Proof. reflexivity. Qed.

(** An address with a NUL byte: [inet_pton] raises [TypeError], which
    [parse_line] does not catch, and [proxy_protocol] under "unread" lets
    it through with the line gone from the adapter. *)
Example parse_line_null_byte :
  parse_line (b "PROXY TCP4 192.168.0.1" ++ [zero]
                ++ b " 192.168.0.11 56324 443" ++ CRLF)
  = Raise TypeError.
Proof. reflexivity. Qed.

Example proxy_protocol_null_byte :
  exists self',
    proxy_protocol proxy_authenticate
      (connection [b "PROXY TCP4 192.168.0.1" ++ [zero]
                     ++ b " 192.168.0.11 56324 443" ++ CRLF ++ hiya] a_peer)
      (b "unread") PyNone (Some 1024%Z) false
    = Some (Raise TypeError, self')
    /\ pending (wrap_request self') = hiya.
Proof. eexists. split; reflexivity. Qed.

(** [test_unread_stream_request] with a proxy line: the record is
    returned and the message is the next thing read. *)
Example test_unread_with_proxy_line :
  exists self',
    proxy_protocol proxy_authenticate (connection [tcp4_line; hiya] a_peer)
                   (b "unread") PyNone (Some 1024%Z) false
    = Some (Return (PyInfo tcp4_info), self')
    /\ fst (recv (wrap_request self') 4096) = hiya.
Proof. eexists. split; reflexivity. Qed.

(** [test_raise_stream_request] without a proxy line: [InvalidLine] is
    raised and the line is gone from the adapter. *)
Example test_raise_without_proxy_line :
  exists self',
    proxy_protocol proxy_authenticate (connection [hiya] a_peer)
                   (b "raise") PyNone (Some 1024%Z) false
    = Some (Raise (ParseError (exc.InvalidLine missing_prefix hiya)), self')
    /\ pending (wrap_request self') = [].
Proof. eexists. split; reflexivity. Qed.

(** [test_unread_stream_request_line_overflow], scaled down: a first line
    beyond the limit yields the default, and the line is still read
    next. *)
Example test_unread_line_overflow :
  exists self',
    proxy_protocol proxy_authenticate
                   (connection [b "********" ++ CRLF ++ hiya] a_peer)
                   (b "unread") PyNone (Some 4%Z) false
    = Some (Return PyNone, self')
    /\ fst (recv (wrap_request self') 4096) = b "********" ++ CRLF ++ hiya.
Proof. eexists. split; reflexivity. Qed.

(** A terminator cut in two by the segments of the socket and by the read
    size. *)
Example read_line_split_terminator :
  read_line [b "hi" ++ [CR]; [LF] ++ b "rest"] BytesIO.empty 2 None
  = Some (Return (b "hi" ++ CRLF), [b "est"], BytesIO.mk (b "r") 1).
Proof. reflexivity. Qed.

(** A line of exactly the limit that arrives whole is returned. *)
Example read_line_at_limit :
  read_line [b "12345678" ++ CRLF] BytesIO.empty default_read_size
            (Some 10%Z)
  = Some (Return (b "12345678" ++ CRLF), [], BytesIO.mk [] 0).
Proof. reflexivity. Qed.

(** * Further properties of the code *)

(** ** The adapter *)

Lemma unread_eq (self : SocketBuffer) (bs : bytes) :
  unread self bs
  = mkSocketBuffer (sock self)
      (BytesIO.mk (bs ++ BytesIO.getvalue (buf self))
                  (length (bs ++ BytesIO.getvalue (buf self)))).
Proof.
  rewrite <- unread_buf. reflexivity.
Qed.

(** X1.  [unread] undoes [recv]: putting back what a [recv] delivered
    gives the adapter the logical stream it had before, with the buffer
    positioned at its end; and when the [recv] was served from the buffer,
    the adapter is exactly what it was. *)
Theorem recv_then_unread (self self' : SocketBuffer) (n : nat) (d : bytes) :
  BytesIO.at_end (buf self) ->
  recv self n = (d, self') ->
  pending (unread self' d) = pending self
  /\ BytesIO.at_end (buf (unread self' d))
  /\ (BytesIO.getvalue (buf self) <> [] -> unread self' d = self).
Proof.
  intros Hend R.
  destruct (recv_spec _ _ _ _ Hend R) as (Hp & _ & _).
  destruct (unread_spec self' d) as (Hu & He & _).
  split; [now rewrite Hu|]. split; [exact He|].
  intros Hne. rewrite recv_buffered in R by assumption.
  inversion R; subst. rewrite unread_eq. simpl.
  rewrite firstn_skipn.
  destruct self as [sk [c p]]. unfold BytesIO.at_end in Hend.
  simpl in *. now subst p.
Qed.

Lemma recv_then_unread_witness :
  unread (snd (recv (unread (SocketBuffer_init [hiya]) tcp4_line) 5))
         (fst (recv (unread (SocketBuffer_init [hiya]) tcp4_line) 5))
  = unread (SocketBuffer_init [hiya]) tcp4_line.
Proof.
  apply (recv_then_unread (unread (SocketBuffer_init [hiya]) tcp4_line)
           (snd (recv (unread (SocketBuffer_init [hiya]) tcp4_line) 5)) 5
           (fst (recv (unread (SocketBuffer_init [hiya]) tcp4_line) 5))).
  - reflexivity.
  - reflexivity.
  - discriminate.
Defined.

(** X2.  Two [unread]s in a row are one [unread] of the second byte
    string followed by the first: what was unread last is delivered first.
    And [unread] of the empty byte string changes nothing. *)
Theorem unread_unread (self : SocketBuffer) (first second : bytes) :
  unread (unread self first) second = unread self (second ++ first)
  /\ (BytesIO.at_end (buf self) -> unread self [] = self).
Proof.
  split.
  - rewrite !unread_eq. simpl. now rewrite app_assoc.
  - intros Hend. rewrite unread_eq. simpl.
    destruct self as [sk [c p]]. unfold BytesIO.at_end in Hend.
    simpl in *. now subst p.
Qed.

Lemma unread_unread_witness :
  unread (unread (SocketBuffer_init [hiya]) tcp4_line) []
  = unread (SocketBuffer_init [hiya]) tcp4_line.
Proof.
  apply (proj2 (unread_unread (unread (SocketBuffer_init [hiya]) tcp4_line)
                  [] [])).
  reflexivity.
Defined.

(** ** [read_line] *)

(** The index [find] returns is the index of a match. *)
Lemma find_spec (sub data : bytes) (idx : nat) :
  find sub data = Some idx -> startswith sub (skipn idx data) = true.
Proof.
  revert idx; induction data as [|c data IH]; intros idx; simpl.
  - destruct sub; simpl; [|discriminate]. now intros [= <-].
  - destruct (startswith sub (c :: data)) eqn:E.
    + now intros [= <-].
    + destruct (find sub data) as [i|]; simpl; [|discriminate].
      intros [= <-]. now apply IH.
Qed.

(** The data up to the end of its first match: the match is at its end
    and is its first. *)
Lemma first_line_shape (view : bytes) (idx : nat) :
  find CRLF view = Some idx ->
  length (firstn (idx + 2) view) = idx + 2
  /\ endswith CRLF (firstn (idx + 2) view) = true
  /\ find CRLF (firstn (idx + 2) view) = Some idx.
Proof.
  intros Hfind. pose proof (find_bound _ _ _ Hfind) as Hb. simpl in Hb.
  assert (length (firstn (idx + 2) view) = idx + 2) as Hlen
    by (rewrite length_firstn; lia).
  split; [exact Hlen|]. split.
  - unfold endswith. rewrite Hlen. simpl length.
    replace (idx + 2 - 2) with idx by lia.
    rewrite skipn_firstn_comm. replace (idx + 2 - idx) with 2 by lia.
    apply find_spec, startswith_prefix in Hfind. rewrite Hfind.
    destruct (2 <=? idx + 2) eqn:E; [reflexivity|].
    apply Nat.leb_gt in E. lia.
  - rewrite <- (firstn_skipn (idx + 2) view) in Hfind.
    destruct (find CRLF (firstn (idx + 2) view)) as [i|] eqn:F.
    + rewrite (find_app _ _ _ _ F) in Hfind. exact Hfind.
    + pose proof (find_app_new _ _ _ _ F Hfind) as Hlt.
      rewrite Hlen in Hlt. simpl in Hlt. lia.
Qed.

(** X3.  A line [read_line] returns has at least two bytes, ends with
    CRLF, holds no CRLF before that one, and under a positive limit is no
    longer than the limit. *)
Theorem read_line_line_shape (sk sk' : Socket.t) (buffer buffer' : BytesIO.t)
    (read_size : nat) (limit : option Z) (line : bytes) :
  BytesIO.at_end buffer ->
  read_line sk buffer read_size limit = Some (Return line, sk', buffer') ->
  2 <= length line
  /\ endswith CRLF line = true
  /\ find CRLF line = Some (length line - 2)
  /\ (forall L, limit = Some L -> (0 < L)%Z -> (Z.of_nat (length line) <= L)%Z).
Proof.
  intros Hend Hr.
  destruct (read_line_total sk _ read_size limit Hend)
    as (r & sk1 & buffer1 & Hr1 & _ & Hpost).
  rewrite Hr in Hr1. inversion Hr1; subst. clear Hr1.
  destruct Hpost as (idx & Hfind & Hx & -> & _).
  destruct (first_line_shape _ _ Hfind) as (Hlen & Hends & Hfirst).
  rewrite Hlen. replace (idx + 2 - 2) with idx by lia.
  repeat split; auto; [lia|].
  intros L -> HL. rewrite exceeds_positive in Hx by exact HL.
  rewrite Z.gtb_ltb in Hx. apply Z.ltb_ge in Hx. exact Hx.
Qed.

Lemma read_line_line_shape_witness :
  endswith CRLF tcp4_line = true
  /\ find CRLF tcp4_line = Some (length tcp4_line - 2).
Proof.
  destruct (read_line_line_shape [tcp4_line ++ hiya] [] BytesIO.empty
              (BytesIO.mk hiya 6) default_read_size (Some 1024%Z) tcp4_line)
    as (_ & H1 & H2 & _).
  - reflexivity.
  - reflexivity.
  - split; assumption.
Defined.

(** X4.  When the logical stream holds no CRLF and the limit, if any,
    leaves room for it all and a terminator, [read_line] raises [NoLine]
    with the length of the whole stream: every byte has been taken off the
    socket and is in the buffer. *)
Theorem read_line_no_line (sk : Socket.t) (buffer : BytesIO.t)
    (read_size : nat) (limit : option Z) :
  BytesIO.at_end buffer -> 0 < read_size ->
  find CRLF (BytesIO.getvalue buffer ++ Socket.stream sk) = None ->
  exceeds limit (length (BytesIO.getvalue buffer ++ Socket.stream sk) + 2)
  = false ->
  exists sk' buffer',
    read_line sk buffer read_size limit
    = Some (Raise (exc.NoLine
                     (length (BytesIO.getvalue buffer ++ Socket.stream sk))),
            sk', buffer')
    /\ BytesIO.getvalue buffer' = BytesIO.getvalue buffer ++ Socket.stream sk
    /\ Socket.stream sk' = []
    /\ BytesIO.at_end buffer'.
Proof.
  intros Hend Hpos Hnone Hroom.
  destruct (read_line_total sk _ read_size limit Hend)
    as (r & sk' & buffer' & Hr & Hend' & Hpost).
  exists sk', buffer'. rewrite Hr.
  destruct r as [line|[n l|n]]; simpl in Hpost.
  - destruct Hpost as (idx & Hfind & _). congruence.
  - exfalso. destruct Hpost as (_ & Hx & Hview & Hn).
    rewrite <- Hview in Hnone, Hroom.
    assert (n <= length (BytesIO.getvalue buffer' ++ Socket.stream sk'))
      as Hle.
    { destruct Hn as [Hn|[_ ->]].
      - apply find_app with (rest := Socket.stream sk') in Hn. congruence.
      - rewrite length_app. lia. }
    assert (n + 2
            <= length (BytesIO.getvalue buffer' ++ Socket.stream sk') + 2)
      as Hle2 by lia.
    rewrite (exceeds_mono _ _ _ Hle2 Hroom) in Hx. discriminate.
  - destruct Hpost as (-> & _ & Hview & Hrest).
    specialize (Hrest Hpos). rewrite Hrest, app_nil_r in Hview.
    rewrite <- Hview. auto.
Qed.

Lemma read_line_no_line_witness :
  exists sk' buffer',
    read_line [b "hi"; b "ya"] BytesIO.empty default_read_size
              (Some 1024%Z)
    = Some (Raise (exc.NoLine 4), sk', buffer')
    /\ BytesIO.getvalue buffer' = b "hiya".
Proof.
  destruct (read_line_no_line [b "hi"; b "ya"] BytesIO.empty
              default_read_size (Some 1024%Z))
    as (sk' & buffer' & Hr & Hv & _).
  - reflexivity.
  - unfold default_read_size. lia.
  - reflexivity.
  - reflexivity.
  - exists sk', buffer'. split; assumption.
Defined.

Lemma read_line_loop_limit_zero (read_size fuel : nat) :
  forall (sk : Socket.t) (buffer : BytesIO.t),
    read_line_loop fuel sk buffer read_size (Some 0%Z)
    = read_line_loop fuel sk buffer read_size None.
Proof.
  induction fuel as [|fuel IH]; intros sk buffer; [reflexivity|].
  simpl. destruct (find CRLF (BytesIO.getvalue buffer)); [reflexivity|].
  destruct (Socket.recv read_size sk) as [[|c d] sk']; [reflexivity|].
  apply IH.
Qed.

(** X5.  A limit of [0] is no limit: [read_line] with [limit=0] does what
    it does with [limit=None]. *)
Theorem read_line_limit_zero (sk : Socket.t) (buffer : BytesIO.t)
    (read_size : nat) :
  read_line sk buffer read_size (Some 0%Z)
  = read_line sk buffer read_size None.
Proof.
  apply read_line_loop_limit_zero.
Qed.

(** X6.  A limit below 2 other than [0] refuses everything: [read_line]
    raises [LineTooLong] at once, with the index of the terminator in the
    buffer or else the length of the buffer, and neither the socket nor
    the buffer is touched. *)
Theorem read_line_low_limit (sk : Socket.t) (buffer : BytesIO.t)
    (read_size : nat) (L : Z) :
  L <> 0%Z -> (L < 2)%Z ->
  read_line sk buffer read_size (Some L)
  = Some (Raise (exc.LineTooLong
                   match find CRLF (BytesIO.getvalue buffer) with
                   | Some idx => idx
                   | None => length (BytesIO.getvalue buffer)
                   end L),
          sk, buffer).
Proof.
  intros Hnz Hlow.
  assert (forall n, exceeds (Some L) (n + 2) = true) as Hx.
  { intros n. simpl. apply andb_true_iff. split.
    - apply negb_true_iff, Z.eqb_neq, Hnz.
    - apply Z.gtb_gt. lia. }
  unfold read_line. cbn [read_line_loop].
  destruct (find CRLF (BytesIO.getvalue buffer)) as [idx|];
    now rewrite Hx.
Qed.

Lemma read_line_low_limit_witness :
  read_line [tcp4_line] BytesIO.empty default_read_size (Some 1%Z)
  = Some (Raise (exc.LineTooLong 0 1), [tcp4_line], BytesIO.empty).
Proof.
  apply (read_line_low_limit [tcp4_line] BytesIO.empty default_read_size 1).
  - discriminate.
  - lia.
Defined.

(** X7.  A [ReadError] loses nothing: when [read_line] raises, what it
    took off the socket is in the buffer, so buffer and socket together
    still hold the logical stream it started from, and the buffer is
    positioned at its end. *)
Theorem read_line_error_loses_nothing (sk sk' : Socket.t)
    (buffer buffer' : BytesIO.t) (read_size : nat) (limit : option Z)
    (e : exc.ReadError) :
  BytesIO.at_end buffer ->
  read_line sk buffer read_size limit = Some (Raise e, sk', buffer') ->
  BytesIO.getvalue buffer' ++ Socket.stream sk'
  = BytesIO.getvalue buffer ++ Socket.stream sk
  /\ BytesIO.at_end buffer'.
Proof.
  intros Hend Hr.
  exact (read_error_keeps_stream (mkSocketBuffer sk buffer) read_size limit
           e sk' buffer' Hend Hr).
Qed.

Lemma read_line_error_loses_nothing_witness :
  BytesIO.getvalue (BytesIO.mk (b "********" ++ CRLF ++ hiya) 16)
    ++ Socket.stream []
  = BytesIO.getvalue BytesIO.empty
      ++ Socket.stream [b "********" ++ CRLF ++ hiya]
  /\ BytesIO.at_end (BytesIO.mk (b "********" ++ CRLF ++ hiya) 16).
Proof.
  apply (read_line_error_loses_nothing [b "********" ++ CRLF ++ hiya] []
           BytesIO.empty (BytesIO.mk (b "********" ++ CRLF ++ hiya) 16)
           default_read_size (Some 4%Z) (exc.LineTooLong 8 4)).
  - reflexivity.
  - reflexivity.
Defined.

(** ** [parse_line] and the wire format *)

Lemma split_not_nil (sep : ascii) (x : bytes) : split sep x <> [].
Proof.
  destruct x as [|c x]; simpl; [discriminate|].
  destruct (Ascii.eqb c sep); [discriminate|].
  destruct (split sep x); discriminate.
Qed.

(** Joining the fields of a byte string gives the byte string back. *)
Lemma join_split (sep : ascii) (x : bytes) : join sep (split sep x) = x.
Proof.
  induction x as [|c x IH]; [reflexivity|].
  simpl. pose proof (split_not_nil sep x) as Hne.
  destruct (Ascii.eqb_spec c sep) as [->|Hc].
  - destruct (split sep x) as [|w ws]; [contradiction|].
    simpl in *. now rewrite IH.
  - destruct (split sep x) as [|w [|w' ws]]; [contradiction|..];
      simpl in *; now rewrite <- IH.
Qed.

(** No field of a byte string holds the separator. *)
Lemma split_fields (sep : ascii) (x : bytes) :
  Forall (fun w => ~ In sep w) (split sep x).
Proof.
  induction x as [|c x IH]; simpl.
  - constructor; [exact (fun H => H)|constructor].
  - destruct (Ascii.eqb_spec c sep) as [->|Hc].
    + constructor; [exact (fun H => H)|exact IH].
    + destruct (split sep x) as [|w ws].
      * constructor; [|constructor]. intros [H|[]]. now apply Hc.
      * inversion IH; subst. constructor; [|assumption].
        intros [H|H]; [now apply Hc|contradiction].
Qed.

Lemma split_app_sep (sep : ascii) (w y : bytes) :
  ~ In sep w -> split sep (w ++ sep :: y) = w :: split sep y.
Proof.
  induction w as [|c w IH]; intros Hw; simpl.
  - now rewrite Ascii.eqb_refl.
  - destruct (Ascii.eqb_spec c sep) as [->|Hc];
      [exfalso; apply Hw; now left|].
    rewrite IH; [reflexivity|]. intros H. apply Hw. now right.
Qed.

Lemma split_no_sep (sep : ascii) (w : bytes) :
  ~ In sep w -> split sep w = [w].
Proof.
  induction w as [|c w IH]; intros Hw; simpl; [reflexivity|].
  destruct (Ascii.eqb_spec c sep) as [->|Hc];
    [exfalso; apply Hw; now left|].
  rewrite IH; [reflexivity|]. intros H. apply Hw. now right.
Qed.

(** Splitting fields that were joined gives the fields back, when none of
    them holds the separator. *)
Lemma split_join (sep : ascii) (parts : list bytes) :
  parts <> [] -> Forall (fun w => ~ In sep w) parts ->
  split sep (join sep parts) = parts.
Proof.
  induction parts as [|w parts IH]; intros Hne Hall; [contradiction|].
  inversion Hall as [|? ? Hw Hrest]; subst.
  destruct parts as [|w' parts].
  - simpl. now apply split_no_sep.
  - change (join sep (w :: w' :: parts))
      with (w ++ sep :: join sep (w' :: parts)).
    rewrite split_app_sep by exact Hw.
    rewrite IH; [reflexivity|discriminate|exact Hrest].
Qed.

Lemma endswith_app (suffix x : bytes) : endswith suffix (x ++ suffix) = true.
Proof.
  unfold endswith. rewrite length_app.
  replace (length x + length suffix - length suffix) with (length x) by lia.
  rewrite skipn_app, skipn_all, Nat.sub_diag. simpl skipn.
  pose proof (startswith_app suffix []) as Hs. rewrite app_nil_r in Hs.
  simpl app. rewrite Hs.
  apply andb_true_iff. split; [|reflexivity]. apply Nat.leb_le. lia.
Qed.

(** A byte string that ends with a suffix is what precedes it and the
    suffix. *)
Lemma endswith_inv (suffix line : bytes) :
  endswith suffix line = true ->
  line = firstn (length line - length suffix) line ++ suffix.
Proof.
  unfold endswith. intros H. apply andb_true_iff in H as [Hl Hs].
  apply Nat.leb_le in Hl. apply startswith_prefix in Hs.
  rewrite <- (firstn_skipn (length line - length suffix) line) at 1.
  f_equal. rewrite Hs at 1.
  rewrite skipn_all2, app_nil_r; [reflexivity|].
  rewrite length_skipn. lia.
Qed.

Lemma fields_join (parts : list bytes) :
  parts <> [] -> Forall (fun w => ~ In SP w) parts ->
  fields (join SP parts ++ CRLF) = parts.
Proof.
  intros Hne Hall. unfold fields. rewrite length_app.
  replace (length (join SP parts) + length CRLF - length CRLF)
    with (length (join SP parts)) by lia.
  rewrite firstn_app, firstn_all, Nat.sub_diag. simpl firstn.
  rewrite app_nil_r. now apply split_join.
Qed.

(** X10.  Every line of the wire format parses: six fields without a
    space, the first starting with [PROXY], the family and the addresses
    passing the address check, and two ports [int] converts, joined by
    single spaces and ended by CRLF, give the record of the addresses as
    written and the ports as converted. *)
Theorem parse_line_accepts (p0 inet src dst sp dp : bytes) (m n : Z) :
  startswith PROXY p0 = true ->
  Forall (fun w => ~ In SP w) [p0; inet; src; dst; sp; dp] ->
  addresses_ok inet src dst ->
  py_int sp = Some m -> py_int dp = Some n ->
  parse_line (join SP [p0; inet; src; dst; sp; dp] ++ CRLF)
  = Return (mkProxyInfo src m dst n).
Proof.
  intros Hp Hall Ha Hm Hn.
  pose proof (fields_join [p0; inet; src; dst; sp; dp]
                ltac:(discriminate) Hall) as Hf.
  rewrite parse_line_checked.
  - rewrite Hf. simpl nth. unfold parse_ports. now rewrite Hm, Hn.
  - change (join SP [p0; inet; src; dst; sp; dp])
      with (p0 ++ SP :: join SP [inet; src; dst; sp; dp]).
    rewrite <- app_assoc. now apply startswith_app_l.
  - apply endswith_app.
  - now rewrite Hf.
  - rewrite Hf. exact Ha.
Qed.

Ltac no_space :=
  repeat constructor; intros H; simpl in H;
  repeat (destruct H as [H|H]; [discriminate H|]); exact H.

Lemma parse_line_accepts_witness :
  parse_line (join SP [b "PROXY"; b "TCP6"; b "::1"; b "fe80::1";
                       b "+65536"; b "-1"] ++ CRLF)
  = Return (mkProxyInfo (b "::1") 65536 (b "fe80::1") (-1)).
Proof.
  apply parse_line_accepts.
  - reflexivity.
  - no_space.
  - right. repeat split; reflexivity.
  - reflexivity.
  - reflexivity.
Defined.

(** X11.  Only lines of the wire format parse: when [parse_line] returns
    a record, the line is six fields without a space joined by single
    spaces and ended by CRLF; the first field starts with [PROXY], the
    second is the family, the third and fourth are the addresses of the
    record and pass the address check of the family, and the last two
    convert with [int] to the ports of the record. *)
Theorem parse_line_shape (line : bytes) (info : ProxyInfo) :
  parse_line line = Return info ->
  exists p0 inet sp dp,
    line = join SP [p0; inet; source_address info; destination_address info;
                    sp; dp] ++ CRLF
    /\ startswith PROXY p0 = true
    /\ Forall (fun w => ~ In SP w)
         [p0; inet; source_address info; destination_address info; sp; dp]
    /\ addresses_ok inet (source_address info) (destination_address info)
    /\ py_int sp = Some (source_port info)
    /\ py_int dp = Some (destination_port info).
Proof.
  intros H.
  apply parse_line_return in H as (Hp & Ht & Hn & Ha & Hports).
  pose proof (first_field_prefix line Hp Ht) as Hp0.
  pose proof (endswith_inv _ _ Ht) as Hline.
  pose proof (split_fields SP (firstn (length line - length CRLF) line))
    as Hall.
  pose proof (join_split SP (firstn (length line - length CRLF) line))
    as Hjoin.
  fold (fields line) in Hall, Hjoin.
  destruct (fields line) as [|p0 [|inet [|src [|dst [|sp [|dp [|]]]]]]];
    try discriminate.
  simpl nth in *.
  apply parse_ports_return in Hports as (<- & <- & Hsp & Hdp).
  exists p0, inet, sp, dp. rewrite Hjoin. auto 10.
Qed.

Lemma parse_line_shape_witness :
  exists p0 inet sp dp,
    tcp6_line
    = join SP [p0; inet; source_address tcp6_info;
               destination_address tcp6_info; sp; dp] ++ CRLF
    /\ py_int sp = Some (source_port tcp6_info)
    /\ py_int dp = Some (destination_port tcp6_info).
Proof.
  destruct (parse_line_shape tcp6_line tcp6_info eq_refl)
    as (p0 & inet & sp & dp & Hline & _ & _ & _ & Hsp & Hdp).
  exists p0, inet, sp, dp. auto.
Defined.

(** ** [proxy_protocol] *)

Lemma has_null_In (s : bytes) : has_null s = true -> In zero s.
Proof.
  unfold has_null. intros H. apply existsb_exists in H as (c & Hc & E).
  apply Ascii.eqb_eq in E. now subst c.
Qed.

Lemma In_join (sep c : ascii) (parts : list bytes) (w : bytes) :
  In w parts -> In c w -> In c (join sep parts).
Proof.
  induction parts as [|v parts IH]; intros Hw Hc; [contradiction|].
  destruct parts as [|v' parts].
  - destruct Hw as [->|[]]. exact Hc.
  - change (join sep (v :: v' :: parts))
      with (v ++ sep :: join sep (v' :: parts)).
    apply in_or_app. destruct Hw as [->|Hw]; [now left|].
    right. right. now apply IH.
Qed.

(** A byte of a field is a byte of the line. *)
Lemma field_In (c : ascii) (line : bytes) (k : nat) :
  In c (nth k (fields line) []) -> In c line.
Proof.
  intros Hc.
  destruct (nth_in_or_default k (fields line) []) as [Hin|Hd];
    [|rewrite Hd in Hc; contradiction].
  unfold fields in Hin.
  pose proof (In_join SP c _ _ Hin Hc) as H. rewrite join_split in H.
  rewrite <- (firstn_skipn (length line - length CRLF) line).
  apply in_or_app. now left.
Qed.

Lemma check_addresses_raises (family : address_family)
    (inet line src dst : bytes) (e : exception) :
  check_addresses family inet line src dst = Raise e ->
  (exists invalid, e = ParseError invalid)
  \/ (e = TypeError /\ (In zero src \/ In zero dst)).
Proof.
  unfold check_addresses, inet_pton.
  destruct (has_null src) eqn:Hs.
  - intros [= <-]. right. split; [reflexivity|]. left. now apply has_null_In.
  - destruct (match family with
              | AF_INET => inet_pton4 src
              | AF_INET6 => inet_pton6 src
              end); [|intros [= <-]; eauto].
    destruct (has_null dst) eqn:Hd.
    + intros [= <-]. right. split; [reflexivity|]. right.
      now apply has_null_In.
    + destruct (match family with
                | AF_INET => inet_pton4 dst
                | AF_INET6 => inet_pton6 dst
                end); [discriminate|intros [= <-]; eauto].
Qed.

(** What [parse_line] raises is an [InvalidLine], or the [TypeError] of
    [inet_pton] on a line that holds a NUL byte. *)
Lemma parse_line_raises (line : bytes) (e : exception) :
  parse_line line = Raise e ->
  (exists invalid, e = ParseError invalid)
  \/ (e = TypeError /\ In zero line).
Proof.
  unfold parse_line.
  destruct (startswith PROXY line); cbn [negb]; [|intros [= <-]; eauto].
  destruct (endswith CRLF line); cbn [negb]; [|intros [= <-]; eauto].
  destruct (length (fields line) =? 6); cbn [negb]; [|intros [= <-]; eauto].
  assert (forall family,
             match check_addresses family (nth 1 (fields line) []) line
                     (nth 2 (fields line) []) (nth 3 (fields line) []) with
             | Return _ =>
                 parse_ports line (nth 2 (fields line) [])
                   (nth 3 (fields line) []) (nth 4 (fields line) [])
                   (nth 5 (fields line) [])
             | Raise e0 => Raise e0
             end = Raise e ->
             (exists invalid, e = ParseError invalid)
             \/ (e = TypeError /\ In zero line)) as Hfam.
  { intros family.
    destruct (check_addresses family (nth 1 (fields line) []) line
                (nth 2 (fields line) []) (nth 3 (fields line) []))
      as [u|e0] eqn:Hc.
    - unfold parse_ports.
      destruct (py_int (nth 4 (fields line) []));
        [destruct (py_int (nth 5 (fields line) []))|];
        try discriminate; intros [= <-]; eauto.
    - intros [= <-].
      destruct (check_addresses_raises _ _ _ _ _ _ Hc)
        as [H|[-> [H|H]]]; [now left|right..];
        (split; [reflexivity|]); eapply field_In; exact H. }
  destruct (bytes_eqb (nth 1 (fields line) []) TCP4); [apply Hfam|].
  destruct (bytes_eqb (nth 1 (fields line) []) TCP6); [apply Hfam|].
  intros [= <-]. eauto.
Qed.

(** The ways the probe ends under "unread". *)
Lemma probe_unread_cases (hook : handler -> ProxyInfo -> bool)
    (self : handler) (default : value) (limit : option Z)
    (authenticate : bool) :
  BytesIO.at_end (buf (wrap_request self)) ->
  exists r sb,
    proxy_protocol hook self (b "unread") default limit authenticate
    = Some (r, with_request self sb)
    /\ BytesIO.at_end (buf sb)
    /\ ((r = Return (resolve_default self default)
         /\ pending sb = pending (wrap_request self))
        \/ (exists idx info,
              find CRLF (pending (wrap_request self)) = Some idx
              /\ parse_line (firstn (idx + 2) (pending (wrap_request self)))
                 = Return info
              /\ pending sb = skipn (idx + 2) (pending (wrap_request self))
              /\ (r = Return (PyInfo info)
                  \/ (authenticate = true
                      /\ hook (with_request self sb) info = false
                      /\ r = Return (resolve_default self default))))
        \/ (exists idx,
              find CRLF (pending (wrap_request self)) = Some idx
              /\ parse_line (firstn (idx + 2) (pending (wrap_request self)))
                 = Raise TypeError
              /\ In zero (firstn (idx + 2) (pending (wrap_request self)))
              /\ pending sb = skipn (idx + 2) (pending (wrap_request self))
              /\ r = Raise TypeError)).
Proof.
  intros Hend.
  destruct (read_line_total (sock (wrap_request self)) _
              default_read_size limit Hend)
    as (r0 & sk & buffer & Hr & Hend' & Hpost).
  rewrite proxy_protocol_unread, Hr.
  destruct r0 as [line|e].
  - destruct Hpost as (idx & Hfind & _ & -> & Hrest).
    fold (pending (wrap_request self)) in Hfind, Hrest |- *.
    assert (pending (mkSocketBuffer sk buffer)
            = skipn (idx + 2) (pending (wrap_request self))) as Hsb
      by exact Hrest.
    destruct (parse_line (firstn (idx + 2) (pending (wrap_request self))))
      as [info|e] eqn:Hparse.
    + destruct authenticate; simpl.
      * destruct (hook (with_request self (mkSocketBuffer sk buffer)) info)
          eqn:Hhook; simpl; eexists _, _;
          (split; [reflexivity|]); (split; [exact Hend'|]);
          right; left; exists idx, info; auto 10.
      * eexists _, _. split; [reflexivity|]. split; [exact Hend'|].
        right. left. exists idx, info. auto.
    + destruct (parse_line_raises _ _ Hparse) as [[invalid ->]|[-> Hnull]].
      * destruct (unread_spec (mkSocketBuffer sk buffer)
                    (firstn (idx + 2) (pending (wrap_request self))))
          as (Hp & He & _).
        eexists _, _. split; [reflexivity|]. split; [exact He|].
        left. split; [reflexivity|].
        rewrite Hp, Hsb. apply firstn_skipn.
      * eexists _, _. split; [reflexivity|]. split; [exact Hend'|].
        right. right. exists idx. auto 10.
  - eexists _, _. split; [reflexivity|]. split; [exact Hend'|].
    left. split; [reflexivity|].
    unfold pending. simpl. destruct e; apply Hpost.
Qed.

(** X8.  Under "unread" the probe leaves the adapter with its buffer
    positioned at its end, and ends in one of three ways.  It returns the
    default with the logical stream of the adapter as it was before the
    probe (a [ReadError], or a [ParseError] and the line unread).  Or the
    first line of the stream parses and has been taken off the stream, and
    the probe returns its record, or the default when authentication was
    asked for and the hook refused the record.  Or the first line holds a
    NUL byte on which [inet_pton] raises [TypeError]: the probe raises it
    and the line is gone from the stream.  It raises nothing else. *)
Theorem probe_unread_transparent (hook : handler -> ProxyInfo -> bool)
    (self : handler) (default : value) (limit : option Z)
    (authenticate : bool) :
  BytesIO.at_end (buf (wrap_request self)) ->
  exists r sb,
    proxy_protocol hook self (b "unread") default limit authenticate
    = Some (r, with_request self sb)
    /\ BytesIO.at_end (buf sb)
    /\ ((r = Return (resolve_default self default)
         /\ pending sb = pending (wrap_request self))
        \/ (exists idx info,
              find CRLF (pending (wrap_request self)) = Some idx
              /\ parse_line (firstn (idx + 2) (pending (wrap_request self)))
                 = Return info
              /\ pending sb = skipn (idx + 2) (pending (wrap_request self))
              /\ (r = Return (PyInfo info)
                  \/ (authenticate = true
                      /\ hook (with_request self sb) info = false
                      /\ r = Return (resolve_default self default))))
        \/ (exists idx,
              find CRLF (pending (wrap_request self)) = Some idx
              /\ parse_line (firstn (idx + 2) (pending (wrap_request self)))
                 = Raise TypeError
              /\ In zero (firstn (idx + 2) (pending (wrap_request self)))
              /\ pending sb = skipn (idx + 2) (pending (wrap_request self))
              /\ r = Raise TypeError)).
Proof.
  exact (probe_unread_cases hook self default limit authenticate).
Qed.

Lemma probe_unread_transparent_witness :
  exists r sb,
    proxy_protocol proxy_authenticate (connection [tcp4_line; hiya] a_peer)
                   (b "unread") PyNone (Some 1024%Z) true
    = Some (r, with_request (connection [tcp4_line; hiya] a_peer) sb)
    /\ BytesIO.at_end (buf sb).
Proof.
  destruct (probe_unread_transparent proxy_authenticate
              (connection [tcp4_line; hiya] a_peer) PyNone (Some 1024%Z)
              true eq_refl)
    as (r & sb & Hr & Hend & _).
  exists r, sb. split; assumption.
Defined.

Lemma proxy_authenticate_true (self : handler) (info : ProxyInfo) :
  proxy_authenticate self info = true ->
  (destination_address info, destination_port info) = client_address self.
Proof.
  unfold proxy_authenticate.
  destruct (client_address self) as [host port].
  rewrite andb_true_iff, bytes_eqb_eq, Z.eqb_eq.
  now intros [-> ->].
Qed.

(** X9.  With authentication asked for, the default hook and [None] as
    the default, a record the probe returns has the peer as its
    destination, whatever the policy and the limit. *)
Theorem probe_returns_authenticated (self self' : handler) (error : bytes)
    (limit : option Z) (info : ProxyInfo) :
  proxy_protocol proxy_authenticate self error PyNone limit true
  = Some (Return (PyInfo info), self') ->
  (destination_address info, destination_port info) = client_address self.
Proof.
  unfold proxy_protocol.
  destruct (negb (bytes_eqb error (b "raise")
                  || bytes_eqb error (b "unread"))); [discriminate|].
  destruct (read_line (sock (wrap_request self)) (buf (wrap_request self))
              default_read_size limit) as [[[[line|e] sk] buffer]|];
    [|destruct (bytes_eqb error (b "raise")); discriminate|discriminate].
  destruct (parse_line line) as [info'|[| | |e|e]];
    [|try discriminate;
      destruct (bytes_eqb error (b "raise")); discriminate..].
  destruct (proxy_authenticate
              (with_request self (mkSocketBuffer sk buffer)) info')
    eqn:Hhook; simpl; [|discriminate].
  intros [= <- _].
  apply proxy_authenticate_true in Hhook. exact Hhook.
Qed.

Lemma probe_returns_authenticated_witness :
  (destination_address tcp4_info, destination_port tcp4_info)
  = client_address (connection [tcp4_line; hiya] (b "192.168.0.11", 443%Z)).
Proof.
  apply (probe_returns_authenticated
           (connection [tcp4_line; hiya] (b "192.168.0.11", 443%Z))
           (with_request
              (connection [tcp4_line; hiya] (b "192.168.0.11", 443%Z))
              (mkSocketBuffer [hiya] BytesIO.empty))
           (b "raise") (Some 1024%Z) tcp4_info).
  reflexivity.
Defined.

(** ** Reading lines through the adapter ([test.py]) *)

(** A [recv] of a positive size comes back empty only when the adapter
    has nothing left, in its buffer or on its socket. *)
Lemma recv_empty (self self' : SocketBuffer) (n : nat) :
  BytesIO.at_end (buf self) -> 0 < n ->
  recv self n = ([], self') -> pending self = [].
Proof.
  intros Hend Hn.
  destruct (BytesIO.getvalue (buf self)) as [|c data] eqn:E.
  - rewrite recv_delegated by assumption.
    destruct (Socket.recv n (sock self)) as [d sk] eqn:R. simpl.
    intros [= -> _]. unfold pending. rewrite E.
    exact (socket_recv_eof _ _ _ Hn R).
  - rewrite recv_buffered by (assumption || congruence).
    rewrite E. destruct n; [lia|]. discriminate.
Qed.

Lemma test_read_line_loop_spec (idx fuel : nat) :
  forall (sock : SocketBuffer) (buffer : BytesIO.t),
    BytesIO.at_end (buf sock) -> BytesIO.at_end buffer ->
    length (pending sock) < fuel ->
    find CRLF (BytesIO.getvalue buffer ++ pending sock) = Some idx ->
    exists sock' buffer',
      test.read_line_loop recv fuel sock buffer
      = Some (Return (firstn (idx + 2)
                        (BytesIO.getvalue buffer ++ pending sock)),
              sock', buffer')
      /\ BytesIO.at_end (buf sock')
      /\ BytesIO.at_end buffer'
      /\ BytesIO.getvalue buffer' ++ pending sock'
         = skipn (idx + 2) (BytesIO.getvalue buffer ++ pending sock).
Proof.
  induction fuel as [|fuel IH]; intros sock buffer Hs Hb Hfuel Hfind; [lia|].
  simpl. unfold BytesIO.getvalue in *.
  destruct (find CRLF (BytesIO.content buffer)) as [i|] eqn:F.
  - pose proof (find_bound _ _ _ F) as Hbound. simpl in Hbound.
    rewrite (find_app _ _ (pending sock) _ F) in Hfind.
    injection Hfind as ->.
    rewrite BytesIOFacts.rewrite_content.
    destruct (firstn_skipn_app (idx + 2) (BytesIO.content buffer)
                (pending sock)) as [H1 H2]; [lia|].
    rewrite H1, H2. eexists _, _. split; [reflexivity|].
    auto with pwho.
  - destruct (recv sock 4096) as [d sock1] eqn:R.
    destruct (recv_spec _ _ _ _ Hs R) as (Hp & _ & Hs1).
    destruct d as [|c d].
    + exfalso.
      rewrite (recv_empty _ _ _ Hs (Nat.lt_0_succ _) R), app_nil_r in Hfind.
      congruence.
    + rewrite (BytesIOFacts.write_at_end _ _ Hb).
      destruct (IH sock1 (BytesIO.mk (BytesIO.content buffer ++ c :: d)
                            (length (BytesIO.content buffer ++ c :: d))))
        as (sock' & buffer' & Hr & Hs' & Hb' & Hrest);
        [exact Hs1|auto with pwho|..].
      * rewrite <- Hp, length_app in Hfuel. simpl in *. lia.
      * simpl. now rewrite <- app_assoc, Hp.
      * simpl in Hr, Hrest. rewrite <- app_assoc, Hp in Hr, Hrest.
        eauto 10.
Qed.

(** [test.read_line] with the fuel it is given. *)
Lemma test_read_line_spec (sock : SocketBuffer) (buffer : BytesIO.t)
    (idx : nat) :
  BytesIO.at_end (buf sock) -> BytesIO.at_end buffer ->
  find CRLF (BytesIO.getvalue buffer ++ pending sock) = Some idx ->
  exists sock' buffer',
    test.read_line sock buffer
    = Some (Return (firstn (idx + 2)
                      (BytesIO.getvalue buffer ++ pending sock)),
            sock', buffer')
    /\ BytesIO.at_end (buf sock')
    /\ BytesIO.at_end buffer'
    /\ BytesIO.getvalue buffer' ++ pending sock'
       = skipn (idx + 2) (BytesIO.getvalue buffer ++ pending sock).
Proof.
  intros Hs Hb Hfind. apply test_read_line_loop_spec; auto.
Qed.

(** X12.  Reading a line through the adapter, as the handler of the test
    suite does with the [read_line] of [test.py] and a buffer of its own,
    returns the logical stream up to and including its first CRLF (the
    caller's buffer first, then the adapter's pending bytes, then the
    socket); what follows stays to be read, in the caller's buffer or in
    the adapter. *)
Theorem adapter_read_line (sock : SocketBuffer) (buffer : BytesIO.t)
    (idx : nat) :
  BytesIO.at_end (buf sock) -> BytesIO.at_end buffer ->
  find CRLF (BytesIO.getvalue buffer ++ pending sock) = Some idx ->
  exists sock' buffer',
    test.read_line sock buffer
    = Some (Return (firstn (idx + 2)
                      (BytesIO.getvalue buffer ++ pending sock)),
            sock', buffer')
    /\ BytesIO.at_end (buf sock')
    /\ BytesIO.at_end buffer'
    /\ BytesIO.getvalue buffer' ++ pending sock'
       = skipn (idx + 2) (BytesIO.getvalue buffer ++ pending sock).
Proof.
  exact (test_read_line_spec sock buffer idx).
Qed.

Lemma adapter_read_line_witness :
  exists sock' buffer',
    test.read_line (unread (SocketBuffer_init [b "ya" ++ CRLF ++ b "more"])
                           (b "hi"))
                   BytesIO.empty
    = Some (Return hiya, sock', buffer')
    /\ BytesIO.getvalue buffer' ++ pending sock' = b "more".
Proof.
  destruct (adapter_read_line
              (unread (SocketBuffer_init [b "ya" ++ CRLF ++ b "more"])
                      (b "hi"))
              BytesIO.empty 4)
    as (sock' & buffer' & Hr & _ & _ & Hrest).
  - reflexivity.
  - reflexivity.
  - reflexivity.
  - exists sock', buffer'. split; assumption.
Defined.

(** X13.  The handler of the test suite under "unread", on a connection
    whose stream holds two lines.  It sends the two lines as they came; or
    the rendered record of the first line, a CRLF and the second line; or
    it raises the [TypeError] of [inet_pton], on a first line that holds a
    NUL byte, and sends nothing.  When the first line is refused with an
    [InvalidLine], it is the two lines as they came. *)
Theorem handle_unread (self : handler) (i j : nat) :
  BytesIO.at_end (buf (wrap_request self)) ->
  find CRLF (pending (wrap_request self)) = Some i ->
  find CRLF (skipn (i + 2) (pending (wrap_request self))) = Some j ->
  exists r self',
    test.handle (b "unread") self = Some (r, self')
    /\ (r = Return
              [firstn (i + 2) (pending (wrap_request self));
               firstn (j + 2) (skipn (i + 2) (pending (wrap_request self)))]
        \/ (exists info,
              parse_line (firstn (i + 2) (pending (wrap_request self)))
              = Return info
              /\ r = Return
                       [test.render (PyInfo info); CRLF;
                        firstn (j + 2)
                          (skipn (i + 2) (pending (wrap_request self)))])
        \/ (parse_line (firstn (i + 2) (pending (wrap_request self)))
            = Raise TypeError
            /\ In zero (firstn (i + 2) (pending (wrap_request self)))
            /\ r = Raise TypeError))
    /\ (forall e,
          parse_line (firstn (i + 2) (pending (wrap_request self)))
          = Raise (ParseError e) ->
          r = Return
                [firstn (i + 2) (pending (wrap_request self));
                 firstn (j + 2)
                   (skipn (i + 2) (pending (wrap_request self)))]).
Proof.
  intros Hend Hi Hj.
  destruct (probe_unread_cases proxy_authenticate self PyNone
              (Some 1024%Z) false Hend)
    as (r & sb & Hprobe & Hsb & Hcases).
  unfold test.handle. rewrite Hprobe.
  destruct Hcases
    as [[-> Hp]|[(idx & info & Hidx & Hparse & Hp & Hr)
                |(idx & Hidx & Hparse & Hnull & Hp & ->)]].
  - change (resolve_default self PyNone) with PyNone. cbv iota beta.
    change (wrap_request (with_request self sb)) with sb.
    destruct (test_read_line_spec sb BytesIO.empty i Hsb eq_refl)
      as (sb1 & buf1 & Hr1 & Hsb1 & Hb1 & Hrest1); [now rewrite Hp|].
    simpl BytesIO.getvalue in Hr1, Hrest1. simpl app in Hr1, Hrest1.
    rewrite Hp in Hr1, Hrest1. rewrite Hr1.
    destruct (test_read_line_spec sb1 buf1 j Hsb1 Hb1)
      as (sb2 & buf2 & Hr2 & _); [now rewrite Hrest1|].
    rewrite Hrest1 in Hr2. rewrite Hr2.
    eexists _, _. split; [reflexivity|]. split; [now left|reflexivity].
  - assert (idx = i) by congruence. subst idx.
    destruct Hr as [->|(Hauth & _)]; [|discriminate].
    cbv iota beta.
    change (wrap_request (with_request self sb)) with sb.
    destruct (test_read_line_spec sb BytesIO.empty j Hsb eq_refl)
      as (sb2 & buf2 & Hr2 & _); [simpl; now rewrite Hp|].
    simpl BytesIO.getvalue in Hr2. simpl app in Hr2.
    rewrite Hp in Hr2. rewrite Hr2.
    eexists _, _. split; [reflexivity|]. split; [right; left; eauto|].
    intros e He. congruence.
  - assert (idx = i) by congruence. subst idx.
    eexists _, _. split; [reflexivity|]. split; [right; right; auto|].
    intros e He. congruence.
Qed.

Lemma handle_unread_witness :
  exists self',
    test.handle (b "unread") (connection [b "PROXY UNKNOWN"; CRLF; hiya]
                                         a_peer)
    = Some (Return [b "PROXY UNKNOWN" ++ CRLF; hiya], self').
Proof.
  destruct (handle_unread (connection [b "PROXY UNKNOWN"; CRLF; hiya] a_peer)
              13 4 eq_refl eq_refl eq_refl)
    as (r & self' & Hr & _ & Hecho).
  exists self'. rewrite Hr. f_equal. f_equal.
  apply (Hecho (exc.InvalidLine expected_6_parts
                  (b "PROXY UNKNOWN" ++ CRLF))).
  reflexivity.
Defined.

(** The cases of [test_unread_stream_request]. *)
Example test_unread_stream_request_proxy :
  exists self',
    test.handle (b "unread") (connection [tcp4_line ++ hiya] a_peer)
    = Some (Return [b "192.168.0.1,56324,192.168.0.11,443"; CRLF; hiya],
            self').
Proof. eexists. reflexivity. Qed.

Example test_unread_stream_request_bad_port :
  exists self',
    test.handle (b "unread") (connection [bad_port_line; hiya] a_peer)
    = Some (Return [bad_port_line; hiya], self').
Proof. eexists. reflexivity. Qed.

Example test_raise_stream_request_bad_port :
  exists e self',
    test.handle (b "raise") (connection [bad_port_line; hiya] a_peer)
    = Some (Raise (ParseError e), self').
Proof. eexists _, _. reflexivity. Qed.
